(** * graphql-rate-limit-redis-esm: the [@rateLimit] directive

    A shallow embedding of [src/directive.ts] and [src/types.ts]:
    the argument validator, the key generators, the LRU cache of limiters
    kept by [createRateLimitDirective], and the resolver wrapper installed
    on every annotated field, followed by the properties they satisfy. *)

From Stdlib Require Import List String Ascii Bool Arith ZArith QArith Qround Lia.
From Stdlib Require Import DecimalString DecimalZ Sorting.Sorted SpecFloat.
Import ListNotations.

Local Open Scope string_scope.
Local Open Scope Z_scope.

(* ================================================================= *)
(** ** JavaScript numbers *)

(** A JavaScript [number] is a double.  The model keeps what the directive
    looks at: whether the value is finite, and its exact value when it is.
    Finite values are rationals, next to [NaN] and the two infinities; the
    sign of zero is not kept.  Comparisons and [Math.ceil] are exact on
    doubles; division rounds its result to a double, see [round_double]. *)
Inductive number : Type :=
  | Fin (q : Q)
  | NaN
  | Inf (negative : bool).

Definition num (z : Z) : number := Fin (inject_Z z).

(** The integer a number denotes, when it denotes one. *)
Definition as_integer (n : number) : option Z :=
  match n with
  | Fin q =>
      if (Qnum q mod Zpos (Qden q) =? 0) then Some (Qnum q / Zpos (Qden q))
      else None
  | NaN | Inf _ => None
  end.

(** [Number.isInteger] *)
Definition Number_isInteger (n : number) : bool :=
  match as_integer n with Some _ => true | None => false end.

(** [a <= b] and [a > b] on numbers; every comparison with [NaN] is false. *)
Definition js_le (a b : number) : bool :=
  match a, b with
  | NaN, _ | _, NaN => false
  | Fin x, Fin y => Qle_bool x y
  | Inf true, _ => true
  | _, Inf false => true
  | Inf false, _ => false
  | _, Inf true => false
  end.

Definition js_gt (a b : number) : bool :=
  match a, b with
  | NaN, _ | _, NaN => false
  | _, _ => negb (js_le a b)
  end.

(** [n / d * 2^(-e)] as a fraction of integers. *)
Definition shift_fraction (n d e : Z) : Z * Z :=
  if 0 <=? e then (n, d * 2 ^ e) else (n * 2 ^ (- e), d).

(** The integer part of the binary logarithm of [a / b], for positive [a]
    and [b]. *)
Definition floor_log2 (a b : Z) : Z :=
  let l := Z.log2 a - Z.log2 b in
  let '(n, d) := shift_fraction a b l in
  if d <=? n then l else l - 1.

(** The integer nearest to [n / d], the even one in a tie. *)
Definition round_half_even (n d : Z) : Z :=
  let q := n / d in
  match 2 * (n mod d) ?= d with
  | Lt => q
  | Gt => q + 1
  | Eq => if Z.even q then q else q + 1
  end.

(** [2^e] for any integer [e]. *)
Definition pow2 (e : Z) : Q :=
  if 0 <=? e then inject_Z (2 ^ e) else 1 # Z.to_pos (2 ^ (- e)).

(** Rounding of a real to binary64, to nearest and to even in a tie, as
    IEEE 754 defines the result of an arithmetic operation: the significand
    has at most 53 bits, the unit in the last place is at least [2^-1074],
    and a magnitude that rounds to [2^1024] or more gives an infinity. *)
Definition round_double (q : Q) : number :=
  let a := Z.abs (Qnum q) in
  let b := Z.pos (Qden q) in
  if a =? 0 then Fin 0
  else
    let e := Z.max (floor_log2 a b - 52) (-1074) in
    let '(n, d) := shift_fraction a b e in
    let m := round_half_even n d in
    if (0 <=? e) && (2 ^ 1024 <=? m * 2 ^ e) then Inf (Qnum q <? 0)
    else Fin (inject_Z (Z.sgn (Qnum q) * m) * pow2 e).

(** [a / b] for a finite positive divisor [b]: the exact quotient, rounded
    to a double. *)
Definition js_div (a : number) (b : Q) : number :=
  match a with
  | Fin x => round_double (x / b)
  | NaN => NaN
  | Inf s => Inf s
  end.

(** [Math.ceil] *)
Definition Math_ceil (a : number) : number :=
  match a with
  | Fin x => num (Qceiling x)
  | NaN => NaN
  | Inf s => Inf s
  end.

(* ================================================================= *)
(** ** Strings *)

(** Characters that [Number::toString] can emit for a finite number. *)
Inductive numchar : Type :=
  | Digit (d : nat) | Dot | Minus | Plus | Exponent.

Definition ascii_of_numchar (c : numchar) : ascii :=
  match c with
  | Digit d => ascii_of_nat (48 + (d mod 10))
  | Dot => "."
  | Minus => "-"
  | Plus => "+"
  | Exponent => "e"
  end%char.

Fixpoint string_of_numchars (l : list numchar) : string :=
  match l with
  | [] => EmptyString
  | c :: l' => String (ascii_of_numchar c) (string_of_numchars l')
  end.

(** Decimal rendering of an integer, as JavaScript prints the integers
    below [2^53]: all of their digits. *)
Definition decimal (z : Z) : string := NilZero.string_of_int (Z.to_int z).

(** [String.prototype.startsWith] and [String.prototype.includes]. *)
Fixpoint startsWith (s p : string) : bool :=
  match p, s with
  | EmptyString, _ => true
  | String _ _, EmptyString => false
  | String a p', String b s' => Ascii.eqb a b && startsWith s' p'
  end.

Fixpoint includes (s p : string) : bool :=
  startsWith s p ||
  match s with
  | EmptyString => false
  | String _ s' => includes s' p
  end.

(** [Array.prototype.join] *)
Fixpoint join (sep : string) (l : list string) : string :=
  match l with
  | [] => ""
  | [x] => x
  | x :: l' => x ++ sep ++ join sep l'
  end.

(** Truthiness of a string: every string but the empty one. *)
Definition truthy_string (s : string) : bool :=
  match s with EmptyString => false | String _ _ => true end.

Section NumberToString.

(** The digits [Number::toString] chooses for a value that is not an integer
    below [2^53] (the shortest digits that read back as the same double,
    padded with zeros or in exponent notation) are left open: only their
    alphabet is fixed. *)
Variable float_digits : Q -> list numchar.

(** [String(n)], the rendering used by template literals. *)
Definition Number_toString (n : number) : string :=
  match n with
  | NaN => "NaN"
  | Inf false => "Infinity"
  | Inf true => "-Infinity"
  | Fin q =>
      match as_integer (Fin q) with
      | Some z =>
          if Z.abs z <? 2 ^ 53 then decimal z
          else string_of_numchars (float_digits q)
      | None => string_of_numchars (float_digits q)
      end
  end.

End NumberToString.

(* ================================================================= *)
(** ** Thrown values and completions *)

(** The [extensions] object of the two errors built by the wrapper:
    [{ code, http: { status }, retryAfter? }]. *)
Record Http : Type := mkHttp {
  status : Z
}.

Record Extensions : Type := mkExtensions {
  code : string;
  http : Http;
  retryAfter : option number
}.

(** The [message] of a thrown value, as [error.message?.includes("Redis")]
    sees it: absent ([undefined] or [null]); a string; another value that
    has an [includes] method, such as an array, with the truthiness of what
    [includes("Redis")] returns; or any other value, on which the call of
    [includes] raises a [TypeError]. *)
Inductive message_value : Type :=
  | MessageAbsent
  | MessageString (s : string)
  | MessageWithIncludes (answer : bool)
  | MessageOther.

(** What the wrapper reads of an object that was thrown: its [message], its
    [msBeforeNext] when that is a number, and its [extensions] when it is
    one of the wrapper's own errors. *)
Record ErrorObject : Type := mkErrorObject {
  message : message_value;
  msBeforeNext : option number;
  extensions : option Extensions
}.

(** A value given to [throw] or to a promise rejection. *)
Inductive js_value : Type :=
  | JsNullish                    (* [null] or [undefined] *)
  | JsObject (e : ErrorObject)
  | JsTypeError.                 (* raised by the engine, see [outer_catch] *)

(** [new Error(msg)] *)
Definition new_Error (msg : string) : js_value :=
  JsObject (mkErrorObject (MessageString msg) None None).

(** [new GraphQLError(msg, { extensions })] *)
Definition new_GraphQLError (msg : string) (ext : Extensions) : js_value :=
  JsObject (mkErrorObject (MessageString msg) None (Some ext)).

(** Outcome of a synchronous call: a value, or a thrown value. *)
Inductive completion (A : Type) : Type :=
  | Normal (a : A)
  | Throw (e : js_value).
Arguments Normal {A} a.
Arguments Throw {A} e.

(** Outcome of an awaited promise. *)
Inductive settled (A : Type) : Type :=
  | Fulfilled (a : A)
  | Rejected (e : js_value).
Arguments Fulfilled {A} a.
Arguments Rejected {A} e.

(* ================================================================= *)
(** ** [types.ts]: directive arguments and key generators *)

(** [RateLimitDirectiveArgs] *)
Record RateLimitDirectiveArgs : Type := mkArgs {
  duration : number;
  limit : number
}.

(** The two fields of [GraphQLResolveInfo] that the key generators read:
    [info.parentType.name] and [info.fieldName]. *)
Record GraphQLResolveInfo : Type := mkInfo {
  parentType_name : string;
  fieldName : string
}.

Section KeyGenerators.

Context {Source ResolverArgs TContext : Type}.

(** [`${info.parentType.name}.${info.fieldName}`] *)
Definition operationId (info : GraphQLResolveInfo) : string :=
  parentType_name info ++ "." ++ fieldName info.

Definition defaultKeyGenerator
    (_directiveArgs : RateLimitDirectiveArgs) (_source : Source)
    (_args : ResolverArgs) (_context : TContext)
    (info : GraphQLResolveInfo) : string :=
  operationId info.

(** [x || fallback] for [x : string | null | undefined]. *)
Definition or_default (x : option string) (fallback : string) : string :=
  match x with
  | Some s => if truthy_string s then s else fallback
  | None => fallback
  end.

Definition createUserKeyGenerator (getUserId : TContext -> option string)
    (_directiveArgs : RateLimitDirectiveArgs) (_source : Source)
    (_args : ResolverArgs) (context : TContext)
    (info : GraphQLResolveInfo) : string :=
  let userId := or_default (getUserId context) "anonymous" in
  "user:" ++ userId ++ ":" ++ operationId info.

Definition createIPKeyGenerator (getIP : TContext -> option string)
    (_directiveArgs : RateLimitDirectiveArgs) (_source : Source)
    (_args : ResolverArgs) (context : TContext)
    (info : GraphQLResolveInfo) : string :=
  let ip := or_default (getIP context) "unknown" in
  "ip:" ++ ip ++ ":" ++ operationId info.

(** [value != null] on an entry of [Object.entries(identifiers)]. *)
Definition entry_present (entry : string * option string) : bool :=
  match snd entry with Some _ => true | None => false end.

(** [`${key}:${value}`] on an entry that passed the filter. *)
Definition entry_part (entry : string * option string) : string :=
  match snd entry with
  | Some value => fst entry ++ ":" ++ value
  | None => fst entry ++ ":" ++ "null"
  end.

(** The identifiers object is the list of its entries, in the order of
    [Object.entries]; a [null] or [undefined] value is [None]. *)
Definition createCompositeKeyGenerator
    (getIdentifiers : TContext -> list (string * option string))
    (_directiveArgs : RateLimitDirectiveArgs) (_source : Source)
    (_args : ResolverArgs) (context : TContext)
    (info : GraphQLResolveInfo) : string :=
  let identifiers := getIdentifiers context in
  let identifierParts :=
    join ":" (List.map entry_part (List.filter entry_present identifiers)) in
  identifierParts ++ ":" ++ operationId info.

End KeyGenerators.

(* ================================================================= *)
(** ** A JavaScript [Map] with string keys *)

(** Entries in iteration order, which is insertion order. *)
Definition JsMap (V : Type) : Type := list (string * V).

Section JsMapOps.

Context {V : Type}.

Definition map_keys (m : JsMap V) : list string := List.map fst m.

Definition map_size (m : JsMap V) : Z := Z.of_nat (List.length m).

Fixpoint map_get (k : string) (m : JsMap V) : option V :=
  match m with
  | [] => None
  | (k', v) :: m' => if String.eqb k k' then Some v else map_get k m'
  end.

Definition map_has (k : string) (m : JsMap V) : bool :=
  match map_get k m with Some _ => true | None => false end.

Fixpoint map_delete (k : string) (m : JsMap V) : JsMap V :=
  match m with
  | [] => []
  | (k', v) :: m' =>
      if String.eqb k k' then map_delete k m' else (k', v) :: map_delete k m'
  end.

(** [set] overwrites in place when the key is present and appends otherwise. *)
Fixpoint map_set (k : string) (v : V) (m : JsMap V) : JsMap V :=
  match m with
  | [] => [(k, v)]
  | (k', v') :: m' =>
      if String.eqb k k' then (k', v) :: m' else (k', v') :: map_set k v m'
  end.

(** [m.keys().next().value] *)
Definition map_first_key (m : JsMap V) : option string :=
  match m with
  | [] => None
  | (k, _) :: _ => Some k
  end.

End JsMapOps.

(* ================================================================= *)
(** ** [directive.ts] *)

Definition MAX_LIMITER_CACHE_SIZE : Z := 100.

(** The value of a property of an options object: a number, or anything
    else ([undefined], a string, ...). *)
Inductive option_value : Type :=
  | OptNumber (n : number)
  | OptOther.

(** [config.limiterOptions], as far as it meets the options of the
    directive: [None] is a property that the object does not have.  Its
    other properties, [storeClient] among them, are the same for every
    limiter of a directive and are carried by the constructor. *)
Record RateLimiterOptions : Type := mkLimiterOptions {
  lo_duration : option option_value;
  lo_points : option option_value
}.

(** The [duration] and [points] of the options object given to
    [new limiterClass]. *)
Record LimiterCtorOptions : Type := mkCtorOptions {
  opt_duration : option_value;
  opt_points : option_value
}.

(** [{ duration: args.duration, points: args.limit, ...limiterOptions }]:
    the spread comes last, so that a [duration] or [points] of
    [limiterOptions] replaces the one of the directive. *)
Definition ctor_options (limiterOptions : RateLimiterOptions)
    (args : RateLimitDirectiveArgs) : LimiterCtorOptions :=
  mkCtorOptions
    (match lo_duration limiterOptions with
     | Some v => v
     | None => OptNumber (duration args)
     end)
    (match lo_points limiterOptions with
     | Some v => v
     | None => OptNumber (limit args)
     end).

(** A limiter object.  [uid] is the identity of the object: the rank of the
    [new] that allocated it. *)
Record RateLimiterRedis : Type := mkLimiter {
  uid : nat;
  options : LimiterCtorOptions
}.

(** The state owned by one [createRateLimitDirective] closure: the cache,
    and the number of times [new limiterClass] was evaluated so far. *)
Record DirectiveState : Type := mkState {
  limiterCache : JsMap RateLimiterRedis;
  constructed : nat
}.

Definition initial_state : DirectiveState := mkState [] 0.

(** What the protected resolver does when called: returns a value (or a
    promise that fulfils with it), throws, or returns a promise that
    rejects. *)
Inductive op_outcome (R : Type) : Type :=
  | OpReturn (r : R)
  | OpThrow (e : js_value)
  | OpReject (e : js_value).
Arguments OpReturn {R} r.
Arguments OpThrow {R} e.
Arguments OpReject {R} e.

(** Calls made by one run of the wrapper, in order. *)
Inductive event : Type :=
  | EvKeyGenerator
  | EvConsume (limiter : RateLimiterRedis) (key : string)
  | EvResolve.

Definition is_EvResolve (ev : event) : bool :=
  match ev with EvResolve => true | _ => false end.

Definition is_EvKeyGenerator (ev : event) : bool :=
  match ev with EvKeyGenerator => true | _ => false end.

Definition is_EvConsume (ev : event) : bool :=
  match ev with EvConsume _ _ => true | _ => false end.

(** [new GraphQLError("Rate limit exceeded", ...)], lines 143-149. *)
Definition rateLimitedError (ms : number) : js_value :=
  new_GraphQLError "Rate limit exceeded"
    (mkExtensions "RATE_LIMITED" (mkHttp 429)
       (Some (Math_ceil (js_div ms 1000)))).

(** [new GraphQLError("Rate limiting service unavailable", ...)],
    lines 159-164. *)
Definition serviceUnavailableError : js_value :=
  new_GraphQLError "Rate limiting service unavailable"
    (mkExtensions "RATE_LIMIT_SERVICE_ERROR" (mkHttp 503) None).

(** The handler of the inner [try], around [await limiter.consume(key)]:
    the value it throws. *)
Definition inner_catch (rateLimitError : js_value) : js_value :=
  match rateLimitError with
  | JsObject o =>
      match msBeforeNext o with
      | Some ms => rateLimitedError ms
      | None => rateLimitError
      end
  | JsNullish | JsTypeError => rateLimitError
  end.

(** The handler of the outer [try]: the value it throws.  Reading
    [error.message] of [null] or [undefined] raises a [TypeError], and so
    does the call of [includes] on a message that has no such method; the
    message of an engine's [TypeError] does not name Redis. *)
Definition outer_catch (error : js_value) : js_value :=
  match error with
  | JsNullish => JsTypeError
  | JsTypeError => error
  | JsObject o =>
      match message o with
      | MessageAbsent => error
      | MessageString m =>
          if includes m "Redis" then serviceUnavailableError else error
      | MessageWithIncludes answer =>
          if answer then serviceUnavailableError else error
      | MessageOther => JsTypeError
      end
  end.

Section Directive.

Variable float_digits : Q -> list numchar.
Local Abbreviation toString := (Number_toString float_digits).

(** [validateDirectiveArgs] *)
Definition validateDirectiveArgs (args : RateLimitDirectiveArgs)
  : completion unit :=
  if negb (Number_isInteger (limit args)) || js_le (limit args) (num 0) then
    Throw (new_Error ("Invalid rate limit: " ++ toString (limit args)
                      ++ ". Must be a positive integer."))
  else if negb (Number_isInteger (duration args))
          || js_le (duration args) (num 0) then
    Throw (new_Error ("Invalid duration: " ++ toString (duration args)
                      ++ ". Must be a positive integer (seconds)."))
  else if js_gt (duration args) (num 31536000) then
    Throw (new_Error ("Invalid duration: " ++ toString (duration args)
                      ++ ". Maximum allowed is 31536000 seconds (1 year)."))
  else if js_gt (limit args) (num 1000000) then
    Throw (new_Error ("Invalid limit: " ++ toString (limit args)
                      ++ ". Maximum allowed is 1000000."))
  else Normal tt.

(** [`${args.duration}:${args.limit}`] *)
Definition cacheKey (args : RateLimitDirectiveArgs) : string :=
  toString (duration args) ++ ":" ++ toString (limit args).

(** The configuration of the directive and its collaborators. *)
Context {Source ResolverArgs TContext Result Store : Type}.

(** [config.keyGenerator]; it may throw. *)
Variable keyGenerator :
  RateLimitDirectiveArgs -> Source -> ResolverArgs -> TContext ->
  GraphQLResolveInfo -> completion string.

(** [new config.limiterClass(options)]: returns normally or throws. *)
Variable limiterClass : LimiterCtorOptions -> completion unit.

(** [config.limiterOptions] *)
Variable limiterOptions : RateLimiterOptions.

(** [limiter.consume(key)] against the external store. *)
Variable consume : RateLimiterRedis -> string -> Store -> settled unit * Store.

(** The resolver of the field before it is wrapped. *)
Variable resolve :
  Source -> ResolverArgs -> TContext -> GraphQLResolveInfo -> op_outcome Result.

(** The eviction step of [getLimiter], lines 85-90. *)
Definition evict_oldest (cache : JsMap RateLimiterRedis)
  : JsMap RateLimiterRedis :=
  if MAX_LIMITER_CACHE_SIZE <=? map_size cache then
    match map_first_key cache with
    | Some oldestKey =>
        if truthy_string oldestKey then map_delete oldestKey cache else cache
    | None => cache
    end
  else cache.

(** [getLimiter].  [has] followed by [get] is one lookup: no entry of the
    cache holds [undefined]. *)
Definition getLimiter (args : RateLimitDirectiveArgs) (st : DirectiveState)
  : completion RateLimiterRedis * DirectiveState :=
  match validateDirectiveArgs args with
  | Throw e => (Throw e, st)
  | Normal _ =>
      let key := cacheKey args in
      match map_get key (limiterCache st) with
      | Some limiter =>
          let cache := map_set key limiter (map_delete key (limiterCache st)) in
          (Normal limiter, mkState cache (constructed st))
      | None =>
          let cache := evict_oldest (limiterCache st) in
          let opts := ctor_options limiterOptions args in
          match limiterClass opts with
          | Throw e => (Throw e, mkState cache (S (constructed st)))
          | Normal _ =>
              let limiter := mkLimiter (constructed st) opts in
              (Normal limiter,
               mkState (map_set key limiter cache) (S (constructed st)))
          end
      end
  end.

(** Everything a resolver call can change: the directive's own state and the
    external store. *)
Record World : Type := mkWorld {
  directive : DirectiveState;
  store : Store
}.

(** The wrapped resolver, lines 125-169: the promise it returns once
    settled, the calls it made, and the world it leaves.  The protected
    resolver's result is returned without [await], so a promise it returns
    is handed to the caller past both handlers. *)
Definition wrapped_resolve (args : RateLimitDirectiveArgs)
    (source : Source) (resolverArgs : ResolverArgs) (context : TContext)
    (info : GraphQLResolveInfo) (w : World)
  : settled Result * list event * World :=
  match keyGenerator args source resolverArgs context info with
  | Throw e => (Rejected (outer_catch e), [EvKeyGenerator], w)
  | Normal key =>
      match getLimiter args (directive w) with
      | (Throw e, d) =>
          (Rejected (outer_catch e), [EvKeyGenerator], mkWorld d (store w))
      | (Normal limiter, d) =>
          match consume limiter key (store w) with
          | (Rejected e, s) =>
              (Rejected (outer_catch (inner_catch e)),
               [EvKeyGenerator; EvConsume limiter key], mkWorld d s)
          | (Fulfilled _, s) =>
              let trace :=
                [EvKeyGenerator; EvConsume limiter key; EvResolve] in
              match resolve source resolverArgs context info with
              | OpReturn r => (Fulfilled r, trace, mkWorld d s)
              | OpThrow e => (Rejected (outer_catch e), trace, mkWorld d s)
              | OpReject e => (Rejected e, trace, mkWorld d s)
              end
          end
      end
  end.

End Directive.

(* ================================================================= *)
(** ** Vocabulary of the properties *)

(** [n] is the integer [z]. *)
Definition denotes (n : number) (z : Z) : Prop :=
  match n with
  | Fin q => q == inject_Z z
  | NaN | Inf _ => False
  end.

(** Both arguments are positive integers within the two maxima. *)
Definition valid_quota (args : RateLimitDirectiveArgs) : Prop :=
  exists l d : Z,
    denotes (limit args) l /\ denotes (duration args) d /\
    1 <= l <= 1000000 /\ 1 <= d <= 31536000.

(** The character [c] occurs in [s]. *)
Fixpoint occurs (c : ascii) (s : string) : bool :=
  match s with
  | EmptyString => false
  | String a s' => Ascii.eqb a c || occurs c s'
  end.

(** The GraphQL grammar of names: [/[_A-Za-z][_0-9A-Za-z]*/]. *)
Definition name_start (c : ascii) : bool :=
  let n := nat_of_ascii c in
  ((65 <=? n) && (n <=? 90) || (97 <=? n) && (n <=? 122) || (n =? 95))%nat.

Definition name_continue (c : ascii) : bool :=
  name_start c || ((48 <=? nat_of_ascii c) && (nat_of_ascii c <=? 57))%nat.

Fixpoint all_chars (p : ascii -> bool) (s : string) : bool :=
  match s with
  | EmptyString => true
  | String a s' => p a && all_chars p s'
  end.

Definition GraphQL_name (s : string) : bool :=
  match s with
  | EmptyString => false
  | String a s' => name_start a && all_chars name_continue s'
  end.

(** The error surfaced for a failed validation: a plain [Error] whose
    message starts with "Invalid". *)
Definition is_configuration_error (e : js_value) : Prop :=
  exists msg, e = new_Error msg /\ startsWith msg "Invalid " = true.

(** The outcome, the trace and the world of a run of the wrapper. *)
Definition outcome_of {R W : Type} (r : settled R * list event * W)
  : settled R := fst (fst r).
Definition trace_of {R W : Type} (r : settled R * list event * W)
  : list event := snd (fst r).
Definition world_of {R W : Type} (r : settled R * list event * W)
  : W := snd r.

(** The protected resolver was called during the run. *)
Definition resolver_invoked (trace : list event) : bool :=
  existsb is_EvResolve trace.

(** The key generator was called during the run. *)
Definition keyGenerator_invoked (trace : list event) : bool :=
  existsb is_EvKeyGenerator trace.

Definition consume_invoked (trace : list event) : bool :=
  existsb is_EvConsume trace.

(** How long ago key [k] was last acquired, in a history that lists the keys
    acquired so far, latest first. *)
Fixpoint age (history : list string) (k : string) : option nat :=
  match history with
  | [] => None
  | k' :: h => if String.eqb k k' then Some O else option_map S (age h k)
  end.

(** [k1] was last acquired strictly before [k2] was. *)
Definition older (history : list string) (k1 k2 : string) : Prop :=
  exists a1 a2 : nat,
    age history k1 = Some a1 /\ age history k2 = Some a2 /\ (a2 < a1)%nat.

Section Runs.

Variable float_digits : Q -> list numchar.
Variable limiterClass : LimiterCtorOptions -> completion unit.
Variable limiterOptions : RateLimiterOptions.

(** One more [getLimiter] call on a directive: the state it leaves, and the
    history extended with the key when a limiter was returned. *)
Definition call (sh : DirectiveState * list string)
    (args : RateLimitDirectiveArgs) : DirectiveState * list string :=
  match getLimiter float_digits limiterClass limiterOptions args (fst sh) with
  | (Normal _, st) => (st, cacheKey float_digits args :: snd sh)
  | (Throw _, st) => (st, snd sh)
  end.

(** A sequence of [getLimiter] calls on a fresh directive. *)
Definition run (calls : list RateLimitDirectiveArgs)
  : DirectiveState * list string :=
  fold_left call calls (initial_state, []).

Definition state_after (calls : list RateLimitDirectiveArgs)
  : DirectiveState := fst (run calls).

Definition history_after (calls : list RateLimitDirectiveArgs)
  : list string := snd (run calls).

End Runs.


(** The [msBeforeNext] of a thrown value, when it has one that is a number. *)
Definition numeric_msBeforeNext (e : js_value) : option number :=
  match e with
  | JsObject o => msBeforeNext o
  | JsNullish | JsTypeError => None
  end.

Definition thrown_message (e : js_value) : option string :=
  match e with
  | JsObject o =>
      match message o with
      | MessageString m => Some m
      | MessageAbsent | MessageWithIncludes _ | MessageOther => None
      end
  | JsNullish | JsTypeError => None
  end.

Definition thrown_extensions (e : js_value) : option Extensions :=
  match e with
  | JsObject o => extensions o
  | JsNullish | JsTypeError => None
  end.

(** Every character a rendered number can contain. *)
Definition number_alphabet : string := "0123456789-+.eNaInfity".

(** Two argument records that denote the same limit and the same
    duration. *)
Definition same_quota (a b : RateLimitDirectiveArgs) : Prop :=
  exists l d : Z,
    denotes (limit a) l /\ denotes (limit b) l /\
    denotes (duration a) d /\ denotes (duration b) d.


(** The value of a binary64 number of the library's specification of
    floating-point arithmetic. *)
Definition number_of_spec_float (f : spec_float) : number :=
  match f with
  | S754_zero _ => Fin 0
  | S754_infinity s => Inf s
  | S754_nan => NaN
  | S754_finite s m e =>
      Fin (inject_Z (if s then Z.neg m else Z.pos m) * pow2 e)
  end.

Definition same_number (a b : number) : bool :=
  match a, b with
  | Fin x, Fin y => Qeq_bool x y
  | NaN, NaN => true
  | Inf s, Inf t => Bool.eqb s t
  | _, _ => false
  end.

(** The quotient of the doubles [m1 * 2^e1] and [m2 * 2^e2]: by the
    library's binary64 division, and by [round_double] on the exact
    quotient. *)
Definition spec_quotient (m1 e1 m2 e2 : Z) : number :=
  number_of_spec_float
    (SFdiv 53 1024 (binary_normalize 53 1024 m1 e1 false)
       (binary_normalize 53 1024 m2 e2 false)).

Definition rounded_quotient (m1 e1 m2 e2 : Z) : number :=
  round_double ((inject_Z m1 * pow2 e1) / (inject_Z m2 * pow2 e2)).


(** What holds of the cache of a directive and of the history of its
    acquisitions between any two [getLimiter] calls: the entries are in
    recency order, least recently acquired first; there are at most
    [MAX_LIMITER_CACHE_SIZE] of them; each limiter is stored under the
    cache key of some arguments, and was allocated by an earlier [new]; no
    two entries hold the same object. *)
Record cache_invariant (float_digits : Q -> list numchar)
    (st : DirectiveState) (history : list string) : Prop := {
  inv_sorted : StronglySorted (older history) (map_keys (limiterCache st));
  inv_aged : Forall (fun k => age history k <> None)
               (map_keys (limiterCache st));
  inv_size : map_size (limiterCache st) <= MAX_LIMITER_CACHE_SIZE;
  inv_entries :
    Forall (fun e => (exists args, fst e = cacheKey float_digits args) /\
                     (uid (snd e) < constructed st)%nat)
      (limiterCache st);
  inv_uids :
    forall e1 e2, In e1 (limiterCache st) -> In e2 (limiterCache st) ->
                  uid (snd e1) = uid (snd e2) -> e1 = e2
}.

(* ================================================================= *)
(** ** A sample configuration *)

(** Concrete collaborators on which the properties are exercised: the
    default key generator, a constructor that never throws, a store that is
    a script of the outcomes of the next [consume] calls, and a resolver
    that is given as its own outcome. *)
Module Sample.

Definition digits (_ : Q) : list numchar := [Digit 0; Dot; Digit 5].

Definition keyGenerator (args : RateLimitDirectiveArgs) (source args' context : unit)
    (info : GraphQLResolveInfo) : completion string :=
  Normal (defaultKeyGenerator args source args' context info).

Definition limiterClass (_ : LimiterCtorOptions) : completion unit :=
  Normal tt.

(** Options that hold a store client and nothing else. *)
Definition limiterOptions : RateLimiterOptions := mkLimiterOptions None None.

(** The limiter that the [n]-th [new] builds for a duration and a limit. *)
Definition limiter (n : nat) (d l : Z) : RateLimiterRedis :=
  mkLimiter n (mkCtorOptions (OptNumber (num d)) (OptNumber (num l))).

Definition consume (_ : RateLimiterRedis) (_ : string)
    (script : list (settled unit)) : settled unit * list (settled unit) :=
  match script with
  | [] => (Fulfilled tt, [])
  | o :: rest => (o, rest)
  end.

Definition info : GraphQLResolveInfo := mkInfo "Query" "test".

(** One call of the wrapped resolver of [Query.test] on a fresh directive. *)
Definition invoke (args : RateLimitDirectiveArgs)
    (script : list (settled unit)) (op : op_outcome string)
  : settled string * list event * World :=
  wrapped_resolve digits keyGenerator limiterClass limiterOptions consume
    (fun _ _ _ _ => op) args tt tt tt info (mkWorld initial_state script).

(** [n] quotas that differ in their limit: [limit = first, first + 1, ...]
    with a window of 60 seconds. *)
Definition quotas (first : Z) (n : nat) : list RateLimitDirectiveArgs :=
  List.map (fun i => mkArgs (num 60) (num (first + Z.of_nat i))) (seq 0 n).

End Sample.

(* ================================================================= *)
(** ** Traffic through the wrapped resolvers *)

(** The number of [consume] calls of a run. *)
Definition consume_calls (trace : list event) : nat :=
  List.length (List.filter is_EvConsume trace).

(** One call of a wrapped resolver: the arguments of the directive on the
    field, and what the executor passes to the resolver. *)
Record Request {Source ResolverArgs TContext : Type} : Type := mkRequest {
  req_directive : RateLimitDirectiveArgs;
  req_source : Source;
  req_args : ResolverArgs;
  req_context : TContext;
  req_info : GraphQLResolveInfo
}.
Arguments Request : clear implicits.

Section Traffic.

Variable float_digits : Q -> list numchar.
Context {Source ResolverArgs TContext Result Store : Type}.
Variable keyGenerator :
  RateLimitDirectiveArgs -> Source -> ResolverArgs -> TContext ->
  GraphQLResolveInfo -> completion string.
Variable limiterClass : LimiterCtorOptions -> completion unit.
Variable limiterOptions : RateLimiterOptions.
Variable consume : RateLimiterRedis -> string -> Store -> settled unit * Store.
Variable resolve :
  Source -> ResolverArgs -> TContext -> GraphQLResolveInfo -> op_outcome Result.

(** The run of the wrapped resolver on one request. *)
Definition handle (rq : Request Source ResolverArgs TContext)
    (w : @World Store) : settled Result * list event * @World Store :=
  wrapped_resolve float_digits keyGenerator limiterClass limiterOptions
    consume resolve
    (req_directive rq) (req_source rq) (req_args rq) (req_context rq)
    (req_info rq) w.

(** The world after a sequence of requests to the fields of one schema,
    all wrapped by the same directive. *)
Definition serve (requests : list (Request Source ResolverArgs TContext))
    (w : @World Store) : @World Store :=
  fold_left (fun w rq => world_of (handle rq w)) requests w.

End Traffic.

(** A store outage seen from the constructor: building the limiter of limit
    101 fails, every other construction succeeds. *)
Module Outage.

Definition error : js_value := new_Error "Redis is not reachable".

Definition limiterClass (opts : LimiterCtorOptions) : completion unit :=
  match opt_points opts with
  | OptNumber n =>
      match as_integer n with
      | Some 101 => Throw error
      | _ => Normal tt
      end
  | OptOther => Normal tt
  end.

End Outage.

(* ================================================================= *)
(** * Properties *)

(** ** Numbers *)

Lemma as_integer_denotes (n : number) (z : Z) :
  as_integer n = Some z <-> denotes n z.
Proof.
  destruct n as [[a b] | | s]; simpl; try (split; [discriminate | tauto]).
  unfold Qeq; simpl. split.
  - destruct (Z.eqb_spec (a mod Z.pos b) 0) as [Hm | Hm]; [| discriminate].
    intros [= <-].
    pose proof (Z.div_mod a (Z.pos b) ltac:(lia)) as Hd. nia.
  - intros H. rewrite Z.mul_1_r in H. subst a.
    rewrite Z.mod_mul by lia. simpl.
    now rewrite Z.div_mul by lia.
Qed.

Lemma denotes_num (z : Z) : denotes (num z) z.
Proof. simpl. reflexivity. Qed.

Lemma denotes_fun (n : number) (a b : Z) :
  denotes n a -> denotes n b -> a = b.
Proof.
  intros Ha Hb. apply as_integer_denotes in Ha, Hb. congruence.
Qed.

Lemma isInteger_denotes (n : number) :
  Number_isInteger n = true <-> exists z, denotes n z.
Proof.
  unfold Number_isInteger. split.
  - destruct (as_integer n) as [z |] eqn:E; [| discriminate].
    intros _. exists z. now apply as_integer_denotes.
  - intros [z Hz]. apply as_integer_denotes in Hz. now rewrite Hz.
Qed.

Lemma js_le_denotes (n : number) (z c : Z) :
  denotes n z -> js_le n (num c) = (z <=? c).
Proof.
  destruct n as [q | | s]; simpl; try tauto.
  intros Hq.
  destruct (Z.leb_spec z c) as [H | H].
  - apply Qle_bool_iff. rewrite Hq. now rewrite <- Zle_Qle.
  - destruct (Qle_bool q (inject_Z c)) eqn:E; [| reflexivity].
    apply Qle_bool_iff in E. rewrite Hq in E.
    rewrite <- Zle_Qle in E. lia.
Qed.

Lemma js_gt_denotes (n : number) (z c : Z) :
  denotes n z -> js_gt n (num c) = (c <? z).
Proof.
  intros Hn. pose proof (js_le_denotes n z c Hn) as Hle.
  destruct n as [q | | s]; simpl in *; try tauto.
  rewrite Hle. apply eq_sym, Z.ltb_antisym.
Qed.

(** ** Division of doubles *)

Lemma round_half_even_spec (n d : Z) :
  0 <= n -> 0 < d ->
  let m := round_half_even n d in
  0 <= m /\ Z.abs (2 * (m * d - n)) <= d /\ m * d <= n + d.
Proof.
  intros Hn Hd. cbv zeta. unfold round_half_even.
  pose proof (Z.div_mod n d ltac:(lia)) as Hdm.
  pose proof (Z.mod_pos_bound n d Hd) as Hr.
  assert (Hq : 0 <= n / d) by (apply Z.div_pos; lia).
  destruct (Z.compare_spec (2 * (n mod d)) d) as [E | E | E];
    [destruct (Z.even (n / d)) | |]; nia.
Qed.

(** [floor_log2] does not overshoot. *)
Lemma floor_log2_lower (a b : Z) :
  0 < a -> 0 < b -> 0 <= floor_log2 a b -> b * 2 ^ floor_log2 a b <= a.
Proof.
  intros Ha Hb. unfold floor_log2, shift_fraction.
  pose proof (Z.log2_spec a Ha) as [Hla _].
  pose proof (Z.log2_spec b Hb) as [_ Hlb].
  pose proof (Z.log2_nonneg a). pose proof (Z.log2_nonneg b).
  set (l := Z.log2 a - Z.log2 b).
  destruct (Z.leb_spec 0 l) as [Hl | Hl].
  - destruct (Z.leb_spec (b * 2 ^ l) a) as [Ht | Ht]; [intros _; exact Ht |].
    intros Hfl.
    assert (E : 2 ^ Z.log2 a = 2 ^ (l - 1) * 2 ^ Z.succ (Z.log2 b)).
    { rewrite <- Z.pow_add_r by lia. f_equal. lia. }
    assert (0 < 2 ^ (l - 1)) by (apply Z.pow_pos_nonneg; lia).
    nia.
  - destruct (b <=? a * 2 ^ (- l)); lia.
Qed.

Lemma floor_log2_small (a b k : Z) :
  0 < a -> 0 < b -> 0 <= k -> a < 2 ^ k * b -> floor_log2 a b < k.
Proof.
  intros Ha Hb Hk Hlt.
  destruct (Z.lt_ge_cases (floor_log2 a b) k) as [| Hge]; [assumption |].
  pose proof (floor_log2_lower a b Ha Hb ltac:(lia)) as Hlow.
  assert (2 ^ k <= 2 ^ floor_log2 a b) by (apply Z.pow_le_mono_r; lia).
  nia.
Qed.

(** The rounded value of a non-zero real below [2^k] in magnitude,
    [k <= 52]: a multiple [m / 2^p] of a unit [2^-p <= 2^(k - 53)], at a
    distance of half a unit at most. *)
Lemma round_double_small (q : Q) (k : Z) :
  0 <= k <= 52 ->
  Z.abs (Qnum q) < 2 ^ k * Z.pos (Qden q) ->
  Qnum q <> 0 ->
  exists m p : Z,
    53 - k <= p /\ 0 <= m /\
    round_double q
    = Fin (inject_Z (Z.sgn (Qnum q) * m) * (1 # Z.to_pos (2 ^ p))) /\
    Z.abs (2 * (m * Z.pos (Qden q) - Z.abs (Qnum q) * 2 ^ p))
    <= Z.pos (Qden q).
Proof.
  intros Hk Hlt Hnz. unfold round_double.
  destruct (Z.eqb_spec (Z.abs (Qnum q)) 0) as [E0 | Hne]; [lia |].
  set (a := Z.abs (Qnum q)) in *. set (b := Z.pos (Qden q)) in *.
  assert (Ha : 0 < a) by (subst a; lia).
  assert (Hb : 0 < b) by (subst b; lia).
  pose proof (floor_log2_small a b k Ha Hb ltac:(lia) Hlt) as Hfl.
  set (e := Z.max (floor_log2 a b - 52) (-1074)).
  assert (He : e <= k - 53) by (subst e; lia).
  unfold shift_fraction, pow2.
  destruct (Z.leb_spec 0 e) as [? | _]; [lia |].
  cbn [andb].
  assert (Hp : 0 < 2 ^ (- e)) by (apply Z.pow_pos_nonneg; lia).
  destruct (round_half_even_spec (a * 2 ^ (- e)) b ltac:(nia) Hb)
    as (Hm & Herr & _).
  exists (round_half_even (a * 2 ^ (- e)) b), (- e).
  repeat split; trivial; lia.
Qed.

Lemma Qceiling_scaled (M P : Z) :
  0 < P -> Qceiling (inject_Z M * (1 # Z.to_pos P)) = - ((- M) / P).
Proof.
  intros HP. unfold Qceiling, Qfloor. cbn.
  rewrite Z2Pos.id by assumption. now rewrite Z.mul_1_r.
Qed.

(** For a whole number of milliseconds below [2^53] in magnitude, the
    division by 1000 in doubles followed by [Math.ceil] gives the ceiling
    of the exact quotient. *)
Lemma ceil_div_1000_exact (x : Q) (z : Z) :
  x == inject_Z z -> Z.abs z < 2 ^ 53 ->
  exists n, Math_ceil (js_div (Fin x) 1000) = num n /\
            1000 * (n - 1) < z <= 1000 * n.
Proof.
  intros Hx Hz. unfold Qeq in Hx. simpl in Hx. rewrite Z.mul_1_r in Hx.
  cbn [js_div Math_ceil].
  set (q := (x / 1000)%Q).
  assert (Hnum : Qnum q = z * Z.pos (Qden x))
    by (subst q; cbn; rewrite Z.mul_1_r; exact Hx).
  assert (Hden : Z.pos (Qden q) = Z.pos (Qden x) * 1000)
    by (subst q; cbn; lia).
  destruct (Z.eq_dec z 0) as [-> | Hz0].
  { exists 0. split; [| lia].
    unfold round_double. rewrite Hnum. reflexivity. }
  destruct (round_double_small q 44) as (m & p & Hp & Hm & -> & Herr).
  - lia.
  - rewrite Hnum, Hden, Z.abs_mul.
    rewrite (Z.abs_eq (Z.pos (Qden x))) by lia.
    change (2 ^ 44) with 17592186044416.
    change (2 ^ 53) with 9007199254740992 in Hz. nia.
  - rewrite Hnum. nia.
  - rewrite Hnum, Hden in Herr.
    set (D := Z.pos (Qden x)) in *. assert (HD : 0 < D) by (subst D; lia).
    assert (HP : 512 <= 2 ^ p).
    { change 512 with (2 ^ 9). apply Z.pow_le_mono_r; lia. }
    set (P := 2 ^ p) in *.
    set (M := Z.sgn (Qnum q) * m).
    assert (HM : Z.abs (2 * (1000 * M - z * P)) <= 1000).
    { subst M. rewrite Hnum.
      assert (Ea : Z.abs (z * D) = Z.abs z * D) by nia.
      assert (Es : Z.sgn (z * D) = Z.sgn z)
        by (rewrite Z.sgn_mul, (Z.sgn_pos D) by lia; lia).
      rewrite Ea in Herr. rewrite Es.
      assert (Hcore : Z.abs (2 * (1000 * m - Z.abs z * P)) <= 1000) by nia.
      destruct (Z.sgn_spec z) as [[Hs ->] | [[Hs ->] | [Hs ->]]]; lia. }
    exists (- ((- M) / P)). cbn [Math_ceil].
    rewrite Qceiling_scaled by lia. split; [reflexivity |].
    pose proof (Z.div_mod (- M) P ltac:(lia)) as Hdm.
    pose proof (Z.mod_pos_bound (- M) P ltac:(lia)) as Hr.
    set (c := (- M) / P) in *.
    nia.
Qed.



(** Two quotients that the rounding decides: a delay above [2^53]
    milliseconds, whose exact thousandth lies just above an integer, and
    the least positive double, whose thousandth rounds to zero. *)
Lemma retry_hint_of_rounded_quotients :
  Math_ceil (js_div (num 5000000000000001024) 1000)
  = num 5000000000000001 /\
  Qceiling (5000000000000001024 / 1000) = 5000000000000002 /\
  same_number (Math_ceil (js_div (Fin (pow2 (-1074))) 1000)) (num 0) = true /\
  Qceiling (pow2 (-1074) / 1000) = 1.
Proof.
  split; [vm_compute; reflexivity |]. split; [vm_compute; reflexivity |].
  split; vm_compute; reflexivity.
Qed.

(** [round_double] against the division of the library's specification of
    binary64, on quotients of doubles: small and large dividends, ties,
    subnormal results, results at both ends of the range. *)
Lemma round_double_agrees_with_SFdiv :
  forallb
    (fun t : Z * Z * Z * Z =>
       let '(m1, e1, m2, e2) := t in
       same_number (rounded_quotient m1 e1 m2 e2)
         (spec_quotient m1 e1 m2 e2))
    [(5000, 0, 1000, 0); (5001, 0, 1000, 0); (1, 0, 1000, 0);
     (999, 0, 1000, 0); (2 ^ 53 - 1, 0, 1000, 0);
     (5000000000000001024, 0, 1000, 0); (1, -1074, 1000, 0);
     (1023, -1074, 1000, 0); (2047, -1074, 1000, 0);
     (2 ^ 53 - 1, 971, 1000, 0); (1, 0, 3, 0); (1, 0, 10, 0);
     (-7, 0, 1000, 0); (2 ^ 53 - 1, 971, 1, -1074);
     (1, -1074, 2 ^ 53 - 1, 971); (1, -1022, 3, 0); (3, -1075, 2, 0);
     (4503599627370497, 0, 2, 0); (4503599627370499, 0, 2, 0);
     (9007199254740993, -1, 1000, 0); (123456789, -20, 1000, 0)]
  = true.
Proof. vm_compute. reflexivity. Qed.

(** ** Strings *)

Lemma occurs_app (c : ascii) (a b : string) :
  occurs c (a ++ b) = occurs c a || occurs c b.
Proof.
  induction a as [| x a IH]; simpl; [reflexivity |].
  now rewrite IH, orb_assoc.
Qed.

Lemma includes_absent_char (c : ascii) (p s : string) :
  occurs c s = false -> includes s (String c p) = false.
Proof.
  induction s as [| a s IH]; simpl; [reflexivity |].
  intros H. apply orb_false_iff in H as [Ha Hs].
  rewrite Ascii.eqb_sym, Ha. simpl. auto.
Qed.

Lemma occurs_cons (c a : ascii) (s : string) :
  occurs c (String a s) = Ascii.eqb a c || occurs c s.
Proof. reflexivity. Qed.

(** Splits [occurs c "lit..." = true] into one goal per character. *)
Ltac occurs_cases H :=
  repeat (rewrite occurs_cons in H;
          apply orb_true_iff in H as [H | H];
          [apply Ascii.eqb_eq in H; subst; reflexivity |]).

Lemma occurs_uint (c : ascii) (d : Decimal.uint) :
  occurs c (NilEmpty.string_of_uint d) = true ->
  occurs c number_alphabet = true.
Proof.
  induction d; cbn [NilEmpty.string_of_uint]; intros H;
    try discriminate; occurs_cases H; auto.
Qed.

Lemma occurs_decimal (c : ascii) (z : Z) :
  occurs c (decimal z) = true -> occurs c number_alphabet = true.
Proof.
  unfold decimal.
  assert (Hu : forall d, occurs c (NilZero.string_of_uint d) = true ->
                         occurs c number_alphabet = true).
  { intros d.
    destruct d;
      try (intros H; apply (occurs_uint c) in H; exact H).
    cbn [NilZero.string_of_uint]. intros H. occurs_cases H. discriminate. }
  destruct (Z.to_int z) as [d | d]; cbn [NilZero.string_of_int];
    [apply Hu |].
  rewrite occurs_cons. intros H.
  apply orb_true_iff in H as [H | H]; [| now apply (Hu d)].
  apply Ascii.eqb_eq in H; subst c; reflexivity.
Qed.

Lemma occurs_numchar (c : ascii) (x : numchar) :
  Ascii.eqb (ascii_of_numchar x) c = true ->
  occurs c number_alphabet = true.
Proof.
  intros H. apply Ascii.eqb_eq in H. subst c.
  destruct x as [d | | | |]; try reflexivity.
  unfold ascii_of_numchar.
  pose proof (Nat.mod_upper_bound d 10 ltac:(discriminate)) as Hd.
  destruct (d mod 10)%nat as [|[|[|[|[|[|[|[|[|[|n]]]]]]]]]];
    try reflexivity; lia.
Qed.

Lemma occurs_numchars (c : ascii) (l : list numchar) :
  occurs c (string_of_numchars l) = true ->
  occurs c number_alphabet = true.
Proof.
  induction l as [| x l IH]; cbn [string_of_numchars]; [discriminate |].
  rewrite occurs_cons.
  intros H; apply orb_true_iff in H as [H | H]; auto.
  now apply occurs_numchar with x.
Qed.

Lemma occurs_toString (fd : Q -> list numchar) (c : ascii) (n : number) :
  occurs c (Number_toString fd n) = true ->
  occurs c number_alphabet = true.
Proof.
  destruct n as [q | | [|]].
  - cbn [Number_toString].
    destruct (as_integer (Fin q)) as [z |];
      [destruct (Z.abs z <? 2 ^ 53) |].
    + apply occurs_decimal.
    + apply occurs_numchars.
    + apply occurs_numchars.
  - cbn [Number_toString]. intros H. occurs_cases H. discriminate.
  - cbn [Number_toString]. intros H. occurs_cases H. discriminate.
  - cbn [Number_toString]. intros H. occurs_cases H. discriminate.
Qed.

Lemma toString_lacks (fd : Q -> list numchar) (c : ascii) (n : number) :
  occurs c number_alphabet = false ->
  occurs c (Number_toString fd n) = false.
Proof.
  intros Hc. destruct (occurs c (Number_toString fd n)) eqn:E; [| reflexivity].
  apply occurs_toString in E. congruence.
Qed.

(** ** The validator *)

Section ValidatorProperties.

Variable float_digits : Q -> list numchar.
Local Abbreviation validate := (validateDirectiveArgs float_digits).

Lemma validate_valid (args : RateLimitDirectiveArgs) :
  valid_quota args -> validate args = Normal tt.
Proof.
  intros (l & d & Hl & Hd & Hlr & Hdr).
  unfold validateDirectiveArgs.
  rewrite (proj2 (isInteger_denotes (limit args)) (ex_intro _ l Hl)).
  rewrite (proj2 (isInteger_denotes (duration args)) (ex_intro _ d Hd)).
  rewrite (js_le_denotes _ _ 0 Hl), (js_le_denotes _ _ 0 Hd).
  rewrite (js_gt_denotes _ _ 31536000 Hd), (js_gt_denotes _ _ 1000000 Hl).
  replace (l <=? 0) with false by lia.
  replace (d <=? 0) with false by lia.
  replace (31536000 <? d) with false by lia.
  replace (1000000 <? l) with false by lia.
  reflexivity.
Qed.

Lemma validate_normal (args : RateLimitDirectiveArgs) (u : unit) :
  validate args = Normal u -> valid_quota args.
Proof.
  unfold validateDirectiveArgs.
  destruct (Number_isInteger (limit args)) eqn:Il; [| discriminate].
  apply isInteger_denotes in Il as [l Hl].
  rewrite (js_le_denotes _ _ 0 Hl). cbn [negb orb].
  destruct (Z.leb_spec l 0) as [? | Hl0]; [discriminate |].
  destruct (Number_isInteger (duration args)) eqn:Id; [| discriminate].
  apply isInteger_denotes in Id as [d Hd].
  rewrite (js_le_denotes _ _ 0 Hd). cbn [negb orb].
  destruct (Z.leb_spec d 0) as [? | Hd0]; [discriminate |].
  rewrite (js_gt_denotes _ _ 31536000 Hd), (js_gt_denotes _ _ 1000000 Hl).
  destruct (Z.ltb_spec 31536000 d) as [? | Hd1]; [discriminate |].
  destruct (Z.ltb_spec 1000000 l) as [? | Hl1]; [discriminate |].
  intros _. exists l, d. repeat split; trivial; lia.
Qed.

(** Every failure of the validator is an [Error] whose message is fixed
    text around one rendered argument. *)
Lemma validate_shape (args : RateLimitDirectiveArgs) :
  validate args = Normal tt \/
  exists pre n post,
    validate args
    = Throw (new_Error (pre ++ Number_toString float_digits n ++ post)) /\
    startsWith pre "Invalid " = true /\
    occurs "R" pre = false /\ occurs "R" post = false.
Proof.
  unfold validateDirectiveArgs.
  repeat match goal with
         | |- context [if ?b then _ else _] => destruct b
         end;
    solve [ now left
          | right; eexists _, _, _; split; [reflexivity |];
            repeat split; reflexivity ].
Qed.

Lemma startsWith_app (pre rest p : string) :
  startsWith pre p = true -> startsWith (pre ++ rest) p = true.
Proof.
  revert pre. induction p as [| a p IH]; intros pre.
  - intros _. now destruct (pre ++ rest).
  - destruct pre as [| b pre]; cbn [startsWith append]; [discriminate |].
    intros H. apply andb_true_iff in H as [-> H]. cbn [andb]. auto.
Qed.

Lemma validate_throw (args : RateLimitDirectiveArgs) (e : js_value) :
  validate args = Throw e -> is_configuration_error e.
Proof.
  intros H.
  destruct (validate_shape args) as [Hn | (pre & n & post & Hv & Hs & _)];
    [congruence |].
  rewrite Hv in H. injection H as <-.
  eexists. split; [reflexivity |]. now apply startsWith_app.
Qed.

Lemma validate_invalid (args : RateLimitDirectiveArgs) :
  ~ valid_quota args ->
  exists e, validate args = Throw e /\ is_configuration_error e.
Proof.
  intros Hn. destruct (validate args) as [[] | e] eqn:E.
  - now apply validate_normal in E.
  - exists e. split; [reflexivity |]. now apply validate_throw in E.
Qed.

(** A configuration error says nothing of Redis, so the outer handler
    throws it again as it is. *)
Lemma configuration_error_passes (args : RateLimitDirectiveArgs)
    (e : js_value) :
  validate args = Throw e -> outer_catch e = e.
Proof.
  intros H.
  destruct (validate_shape args) as [Hn | (pre & n & post & Hv & _ & Hp & Hq)];
    [congruence |].
  rewrite Hv in H. injection H as <-.
  unfold new_Error, outer_catch; cbn [message].
  rewrite includes_absent_char; [reflexivity |].
  now rewrite !occurs_app, Hp, Hq, toString_lacks.
Qed.

End ValidatorProperties.

(** ** The two handlers *)

Lemma inner_catch_numeric (e : js_value) (ms : number) :
  numeric_msBeforeNext e = Some ms -> inner_catch e = rateLimitedError ms.
Proof.
  destruct e as [| o |]; simpl; try discriminate. now intros ->.
Qed.




Lemma outer_catch_rateLimited (ms : number) :
  outer_catch (rateLimitedError ms) = rateLimitedError ms.
Proof. reflexivity. Qed.

(** ** The wrapped resolver *)

Section WrapperProperties.

Variable float_digits : Q -> list numchar.
Context {Source ResolverArgs TContext Result Store : Type}.
Variable keyGenerator :
  RateLimitDirectiveArgs -> Source -> ResolverArgs -> TContext ->
  GraphQLResolveInfo -> completion string.
Variable limiterClass : LimiterCtorOptions -> completion unit.
Variable limiterOptions : RateLimiterOptions.
Variable consume : RateLimiterRedis -> string -> Store -> settled unit * Store.
Variable resolve :
  Source -> ResolverArgs -> TContext -> GraphQLResolveInfo -> op_outcome Result.

Local Abbreviation validate := (validateDirectiveArgs float_digits).
Local Abbreviation acquire :=
  (getLimiter float_digits limiterClass limiterOptions).
Local Abbreviation wrapper :=
  (wrapped_resolve float_digits keyGenerator limiterClass limiterOptions
     consume resolve).

Lemma getLimiter_invalid (args : RateLimitDirectiveArgs) (e : js_value)
    (st : DirectiveState) :
  validate args = Throw e -> acquire args st = (Throw e, st).
Proof. unfold getLimiter. now intros ->. Qed.

Lemma getLimiter_returns_valid (args : RateLimitDirectiveArgs)
    (st st' : DirectiveState) (limiter : RateLimiterRedis) :
  acquire args st = (Normal limiter, st') -> valid_quota args.
Proof.
  unfold getLimiter.
  destruct (validate args) as [u |] eqn:E; [| discriminate].
  intros _. now apply validate_normal in E.
Qed.

(** With invalid arguments the run stops in [getLimiter] at the latest. *)
Lemma invalid_run (args : RateLimitDirectiveArgs) (source : Source)
    (resolverArgs : ResolverArgs) (context : TContext)
    (info : GraphQLResolveInfo) (w : World) :
  ~ valid_quota args ->
  trace_of (wrapper args source resolverArgs context info w)
  = [EvKeyGenerator].
Proof.
  intros Hn. destruct (validate_invalid float_digits args Hn) as (e & He & _).
  unfold wrapped_resolve.
  destruct (keyGenerator args source resolverArgs context info);
    [| reflexivity].
  now rewrite (getLimiter_invalid _ _ _ He).
Qed.

(** C1: validation succeeds exactly on positive integers within the two
    maxima ([limit <= 1000000], [duration <= 31536000]); on any other
    arguments it throws a configuration error, and no run of the wrapped
    resolver with such arguments calls the protected resolver. *)
Theorem validation_accepts_exactly_valid_quotas
    (args : RateLimitDirectiveArgs) :
  (validate args = Normal tt <-> valid_quota args) /\
  (~ valid_quota args ->
   (exists e, validate args = Throw e /\ is_configuration_error e) /\
   forall source resolverArgs context info w,
     resolver_invoked
       (trace_of (wrapper args source resolverArgs context info w)) = false).
Proof.
  split.
  - split; [apply validate_normal | apply validate_valid].
  - intros Hn. split; [now apply validate_invalid |].
    intros. now rewrite invalid_run.
Qed.

(** C2: when [consume] rejects with a value that carries a numeric
    [msBeforeNext], the wrapper rejects with the "Rate limit exceeded"
    error, code RATE_LIMITED, status 429, whose [retryAfter] is
    [Math.ceil(msBeforeNext / 1000)], the division being that of doubles,
    and the protected resolver is not called.  When [msBeforeNext] is a
    whole number of milliseconds [z] below [2^53] in magnitude, [retryAfter]
    is the integer [n] with [1000 * (n - 1) < z <= 1000 * n]: the number of
    seconds, rounded up. *)
Theorem quota_rejection_classified
    (args : RateLimitDirectiveArgs) (source : Source)
    (resolverArgs : ResolverArgs) (context : TContext)
    (info : GraphQLResolveInfo) (w : World)
    (key : string) (limiter : RateLimiterRedis) (d : DirectiveState)
    (e : js_value) (ms : number) (s : Store) :
  keyGenerator args source resolverArgs context info = Normal key ->
  acquire args (directive w) = (Normal limiter, d) ->
  consume limiter key (store w) = (Rejected e, s) ->
  numeric_msBeforeNext e = Some ms ->
  let r := wrapper args source resolverArgs context info w in
  outcome_of r = Rejected (rateLimitedError ms) /\
  thrown_message (rateLimitedError ms) = Some "Rate limit exceeded" /\
  (exists ext,
      thrown_extensions (rateLimitedError ms) = Some ext /\
      code ext = "RATE_LIMITED" /\ status (http ext) = 429 /\
      retryAfter ext = Some (Math_ceil (js_div ms 1000)) /\
      forall z, denotes ms z -> Z.abs z < 2 ^ 53 ->
                exists n, retryAfter ext = Some (num n) /\
                          1000 * (n - 1) < z <= 1000 * n) /\
  resolver_invoked (trace_of r) = false.
Proof.
  intros Hk Hl Hc Hms r. subst r. unfold wrapped_resolve.
  rewrite Hk, Hl, Hc. cbn [outcome_of trace_of fst snd].
  rewrite (inner_catch_numeric _ _ Hms), outer_catch_rateLimited.
  split; [reflexivity |]. split; [reflexivity |]. split; [| reflexivity].
  eexists. split; [reflexivity |]. cbn [code status http retryAfter].
  split; [reflexivity |]. split; [reflexivity |]. split; [reflexivity |].
  intros z Hz Hb. destruct ms as [x | |]; try contradiction.
  destruct (ceil_div_1000_exact x z Hz Hb) as (n & -> & Hn).
  now exists n.
Qed.

(** C7, as the code has it: the key generator is called before the
    arguments are validated.  With invalid arguments the run consists of
    that one call: neither [consume] nor the protected resolver is called,
    and when the key generator returns a key the wrapper rejects with the
    configuration error and leaves the directive as it was. *)
Theorem validation_follows_key_generation
    (args : RateLimitDirectiveArgs) (source : Source)
    (resolverArgs : ResolverArgs) (context : TContext)
    (info : GraphQLResolveInfo) (w : World) :
  ~ valid_quota args ->
  let r := wrapper args source resolverArgs context info w in
  trace_of r = [EvKeyGenerator] /\
  consume_invoked (trace_of r) = false /\
  resolver_invoked (trace_of r) = false /\
  (forall key,
      keyGenerator args source resolverArgs context info = Normal key ->
      exists e,
        validate args = Throw e /\ is_configuration_error e /\
        outcome_of r = Rejected e /\ world_of r = w).
Proof.
  intros Hn r. subst r. rewrite (invalid_run _ _ _ _ _ _ Hn).
  repeat split.
  intros key Hk.
  destruct (validate_invalid float_digits args Hn) as (e & He & Hc).
  exists e. repeat split; trivial.
  - unfold wrapped_resolve.
    rewrite Hk, (getLimiter_invalid _ _ _ He). cbn [outcome_of fst].
    now rewrite (configuration_error_passes _ _ _ He).
  - unfold wrapped_resolve.
    rewrite Hk, (getLimiter_invalid _ _ _ He). cbn [world_of snd].
    now destruct w.
Qed.

(** What becomes of a failure of the protected resolver, once validation,
    key generation and [consume] have succeeded: a rejected promise is
    handed over as it is, a synchronous throw goes through the outer
    handler. *)
Lemma resolver_failure
    (args : RateLimitDirectiveArgs) (source : Source)
    (resolverArgs : ResolverArgs) (context : TContext)
    (info : GraphQLResolveInfo) (w : World)
    (key : string) (limiter : RateLimiterRedis) (d : DirectiveState)
    (u : unit) (s : Store) :
  keyGenerator args source resolverArgs context info = Normal key ->
  acquire args (directive w) = (Normal limiter, d) ->
  consume limiter key (store w) = (Fulfilled u, s) ->
  let r := wrapper args source resolverArgs context info w in
  (forall e, resolve source resolverArgs context info = OpReject e ->
             outcome_of r = Rejected e) /\
  (forall e, resolve source resolverArgs context info = OpThrow e ->
             outcome_of r = Rejected (outer_catch e)).
Proof.
  intros Hk Hl Hc r. subst r. unfold wrapped_resolve.
  rewrite Hk, Hl, Hc. split; intros e ->; reflexivity.
Qed.

End WrapperProperties.

(** ** Maps *)

Local Open Scope list_scope.

Section JsMapProperties.

Context {V : Type}.
Implicit Types (m : JsMap V) (k : string) (v : V).

Lemma map_get_None m k : map_get k m = None <-> ~ In k (map_keys m).
Proof.
  induction m as [| [k' v'] m IH]; simpl; [tauto |].
  destruct (String.eqb_spec k k') as [-> | Hne].
  - split; [discriminate | tauto].
  - rewrite IH. split; [intros H [E | I]; [congruence | tauto] | tauto].
Qed.

Lemma map_get_Some_In m k v : map_get k m = Some v -> In (k, v) m.
Proof.
  induction m as [| [k' v'] m IH]; simpl; [discriminate |].
  destruct (String.eqb_spec k k') as [-> | Hne]; [| auto].
  intros [= ->]. now left.
Qed.

Lemma map_get_app m1 m2 k :
  map_get k (m1 ++ m2)
  = match map_get k m1 with Some v => Some v | None => map_get k m2 end.
Proof.
  induction m1 as [| [k' v'] m1 IH]; simpl; [reflexivity |].
  now destruct (String.eqb k k').
Qed.

Lemma map_set_absent m k v : map_get k m = None -> map_set k v m = m ++ [(k, v)].
Proof.
  induction m as [| [k' v'] m IH]; simpl; [reflexivity |].
  destruct (String.eqb k k'); [discriminate |].
  intros H. now rewrite IH.
Qed.

Lemma map_delete_absent m k : map_get k m = None -> map_delete k m = m.
Proof.
  induction m as [| [k' v'] m IH]; simpl; [reflexivity |].
  destruct (String.eqb k k'); [discriminate |].
  intros H. now rewrite IH.
Qed.

Lemma map_get_delete m k : map_get k (map_delete k m) = None.
Proof.
  induction m as [| [k' v'] m IH]; simpl; [reflexivity |].
  destruct (String.eqb k k') eqn:E; [assumption |].
  simpl. now rewrite E.
Qed.

Lemma map_delete_app m1 m2 k :
  map_delete k (m1 ++ m2) = map_delete k m1 ++ map_delete k m2.
Proof.
  induction m1 as [| [k' v'] m1 IH]; simpl; [reflexivity |].
  destruct (String.eqb k k'); [assumption |].
  simpl. now rewrite IH.
Qed.

Lemma map_delete_keys m k :
  map_keys (map_delete k m)
  = filter (fun k' => negb (String.eqb k k')) (map_keys m).
Proof.
  induction m as [| [k' v'] m IH]; simpl; [reflexivity |].
  destruct (String.eqb k k'); simpl; [assumption |].
  now rewrite <- IH.
Qed.

Lemma map_delete_length m k :
  (List.length (map_delete k m) <= List.length m)%nat.
Proof.
  induction m as [| [k' v'] m IH]; simpl; [lia |].
  destruct (String.eqb k k'); simpl; lia.
Qed.

Lemma map_delete_length_present m k v :
  map_get k m = Some v ->
  (S (List.length (map_delete k m)) <= List.length m)%nat.
Proof.
  induction m as [| [k' v'] m IH]; simpl; [discriminate |].
  destruct (String.eqb k k'); simpl.
  - intros _. pose proof (map_delete_length m k). lia.
  - intros H. apply IH in H. lia.
Qed.

Lemma map_delete_In m k e : In e (map_delete k m) -> In e m.
Proof.
  induction m as [| [k' v'] m IH]; simpl; [tauto |].
  destruct (String.eqb k k'); simpl; tauto.
Qed.

Lemma map_keys_app m1 m2 : map_keys (m1 ++ m2) = map_keys m1 ++ map_keys m2.
Proof. apply List.map_app. Qed.

(** Deleting the first key of a map without duplicate keys drops the first
    entry and nothing else. *)
Lemma map_delete_first m k v :
  NoDup (map_keys ((k, v) :: m)) -> map_delete k ((k, v) :: m) = m.
Proof.
  simpl. rewrite String.eqb_refl. intros H.
  apply map_delete_absent, map_get_None. now inversion H.
Qed.

End JsMapProperties.

(** ** Recency *)

Lemma older_irrefl (h : list string) (k : string) : ~ older h k k.
Proof. intros (a1 & a2 & H1 & H2 & Hlt). rewrite H1 in H2. injection H2 as ->. lia. Qed.

Lemma older_touch_other (h : list string) (k k1 k2 : string) :
  k1 <> k -> k2 <> k -> older h k1 k2 -> older (k :: h) k1 k2.
Proof.
  intros H1 H2 (a1 & a2 & E1 & E2 & Hlt).
  exists (S a1), (S a2). simpl.
  destruct (String.eqb_spec k1 k); [contradiction |].
  destruct (String.eqb_spec k2 k); [contradiction |].
  rewrite E1, E2. simpl. repeat split. lia.
Qed.

Lemma older_than_touched (h : list string) (k k1 : string) :
  k1 <> k -> age h k1 <> None -> older (k :: h) k1 k.
Proof.
  intros H1 Ha. destruct (age h k1) as [a |] eqn:E; [| contradiction].
  exists (S a), O. simpl. rewrite String.eqb_refl.
  destruct (String.eqb_spec k1 k); [contradiction |].
  rewrite E. simpl. repeat split. lia.
Qed.

Lemma age_touch (h : list string) (k k1 : string) :
  age h k1 <> None -> age (k :: h) k1 <> None.
Proof.
  simpl. destruct (String.eqb k1 k); [discriminate |].
  now destruct (age h k1).
Qed.

Lemma StronglySorted_filter {A : Type} (R : A -> A -> Prop)
    (f : A -> bool) (l : list A) :
  StronglySorted R l -> StronglySorted R (filter f l).
Proof.
  induction 1 as [| a l Hs IH Hall]; simpl; [constructor |].
  destruct (f a); [| assumption].
  constructor; [assumption |].
  rewrite Forall_forall in *. intros x Hx.
  apply filter_In in Hx. now apply Hall.
Qed.

Lemma StronglySorted_snoc {A : Type} (R : A -> A -> Prop)
    (l : list A) (x : A) :
  StronglySorted R l -> Forall (fun y => R y x) l ->
  StronglySorted R (l ++ [x]).
Proof.
  induction 1 as [| a l Hs IH Hall]; simpl; intros Hx.
  - repeat constructor.
  - inversion Hx; subst. constructor; [auto |].
    apply Forall_app. split; [assumption | now constructor].
Qed.

Lemma StronglySorted_NoDup {A : Type} (R : A -> A -> Prop) (l : list A) :
  (forall x, ~ R x x) -> StronglySorted R l -> NoDup l.
Proof.
  intros Hirr. induction 1 as [| a l Hs IH Hall]; constructor; [| assumption].
  intros Hin. rewrite Forall_forall in Hall. now apply (Hirr a), Hall.
Qed.

(** Acquiring [k] puts it last in recency order, after every other key. *)
Lemma recency_touch (h : list string) (k : string) (keys : list string) :
  StronglySorted (older h) keys ->
  Forall (fun k' => age h k' <> None) keys ->
  ~ In k keys ->
  StronglySorted (older (k :: h)) (keys ++ [k]) /\
  Forall (fun k' => age (k :: h) k' <> None) (keys ++ [k]).
Proof.
  intros Hs Ha Hk. split.
  - apply StronglySorted_snoc.
    + clear Ha. induction Hs as [| a l Hs IH Hall]; constructor.
      * apply IH. simpl in Hk. tauto.
      * rewrite Forall_forall in *. intros x Hx.
        apply older_touch_other; auto.
        -- intros ->. apply Hk. now left.
        -- intros ->. apply Hk. now right.
    + rewrite Forall_forall in *. intros x Hx.
      apply older_than_touched; auto. intros ->. contradiction.
  - apply Forall_app. split.
    + rewrite Forall_forall in *. intros x Hx. now apply age_touch, Ha.
    + constructor; [| constructor]. simpl. now rewrite String.eqb_refl.
Qed.

(** ** Cache keys *)

Lemma decimal_inj (a b : Z) : decimal a = decimal b -> a = b.
Proof.
  unfold decimal. intros H. apply DecimalZ.to_int_inj.
  assert (Hnil : forall z, Z.to_int z <> Decimal.Pos Decimal.Nil /\
                           Z.to_int z <> Decimal.Neg Decimal.Nil).
  { intros [| p | p]; simpl; split; try discriminate;
      intros [= E]; now apply DecimalPos.Unsigned.to_uint_nonnil in E. }
  apply (f_equal NilZero.int_of_string) in H.
  rewrite !NilZero.isi in H by apply Hnil. congruence.
Qed.

Lemma toString_integer (fd : Q -> list numchar) (n : number) (z : Z) :
  denotes n z -> Z.abs z < 2 ^ 53 -> Number_toString fd n = decimal z.
Proof.
  intros Hd Hz. apply as_integer_denotes in Hd.
  destruct n as [q | |]; try discriminate.
  cbn [Number_toString]. rewrite Hd.
  now destruct (Z.ltb_spec (Z.abs z) (2 ^ 53)); [| lia].
Qed.

Lemma append_separator_inj (c : ascii) (a a' b b' : string) :
  occurs c a = false -> occurs c a' = false ->
  (a ++ String c b)%string = (a' ++ String c b')%string ->
  a = a' /\ b = b'.
Proof.
  revert a'. induction a as [| x a IH]; intros [| x' a'];
    cbn [append]; rewrite ?occurs_cons; intros Ha Ha' H.
  - injection H as ->. now split.
  - injection H as <- _. rewrite Ascii.eqb_refl in Ha'. discriminate.
  - injection H as -> _. rewrite Ascii.eqb_refl in Ha. discriminate.
  - injection H as -> H.
    apply orb_false_iff in Ha as [_ Ha]. apply orb_false_iff in Ha' as [_ Ha'].
    destruct (IH a' Ha Ha' H) as [-> ->]. now split.
Qed.

(** On valid arguments the cache key tells the quota. *)
Lemma cacheKey_inj (fd : Q -> list numchar) (a b : RateLimitDirectiveArgs) :
  valid_quota a -> valid_quota b ->
  cacheKey fd a = cacheKey fd b -> same_quota a b.
Proof.
  intros (la & da & Hla & Hda & Rl & Rd) (lb & db & Hlb & Hdb & Rl' & Rd').
  unfold cacheKey.
  rewrite (toString_integer fd _ _ Hla), (toString_integer fd _ _ Hda),
    (toString_integer fd _ _ Hlb), (toString_integer fd _ _ Hdb) by lia.
  intros H. apply append_separator_inj in H as [Hd Hl].
  - apply decimal_inj in Hd, Hl. subst. now exists lb, db.
  - destruct (occurs ":" (decimal da)) eqn:E; [| reflexivity].
    apply occurs_decimal in E. discriminate.
  - destruct (occurs ":" (decimal db)) eqn:E; [| reflexivity].
    apply occurs_decimal in E. discriminate.
Qed.

Lemma same_quota_cacheKey (fd : Q -> list numchar)
    (a b : RateLimitDirectiveArgs) :
  valid_quota a -> same_quota a b -> cacheKey fd a = cacheKey fd b.
Proof.
  intros (la & da & Hla & Hda & Rl & Rd) (l & d & Hl & Hl' & Hd & Hd').
  pose proof (denotes_fun _ _ _ Hla Hl). pose proof (denotes_fun _ _ _ Hda Hd).
  subst. unfold cacheKey.
  now rewrite (toString_integer fd _ _ Hl), (toString_integer fd _ _ Hd),
    (toString_integer fd _ _ Hl'), (toString_integer fd _ _ Hd') by lia.
Qed.

(** ** The cache of limiters *)

Lemma cacheKey_truthy (fd : Q -> list numchar)
    (args : RateLimitDirectiveArgs) :
  truthy_string (cacheKey fd args) = true.
Proof.
  unfold cacheKey. now destruct (Number_toString fd (duration args)).
Qed.

Section CacheProperties.

Variable float_digits : Q -> list numchar.
Variable limiterClass : LimiterCtorOptions -> completion unit.
Variable limiterOptions : RateLimiterOptions.

Local Abbreviation acquire :=
  (getLimiter float_digits limiterClass limiterOptions).
Local Abbreviation key := (cacheKey float_digits).
Local Abbreviation invariant := (cache_invariant float_digits).
Local Abbreviation step := (call float_digits limiterClass limiterOptions).
Local Abbreviation after :=
  (state_after float_digits limiterClass limiterOptions).

Lemma invariant_NoDup (st : DirectiveState) (h : list string) :
  invariant st h -> NoDup (map_keys (limiterCache st)).
Proof.
  intros [Hs _ _ _ _].
  apply (StronglySorted_NoDup (older h)); [apply older_irrefl | assumption].
Qed.

Lemma invariant_initial : invariant initial_state [].
Proof.
  constructor; simpl; try constructor.
  - unfold map_size, MAX_LIMITER_CACHE_SIZE. simpl. lia.
  - intros ? ? [].
Qed.

(** The eviction step under the invariant: nothing below capacity, the
    first entry and only it at capacity. *)
Lemma evict_oldest_spec (st : DirectiveState) (h : list string) :
  invariant st h ->
  (map_size (limiterCache st) < MAX_LIMITER_CACHE_SIZE ->
   evict_oldest (limiterCache st) = limiterCache st) /\
  (map_size (limiterCache st) = MAX_LIMITER_CACHE_SIZE ->
   exists oldest rest,
     limiterCache st = oldest :: rest /\
     evict_oldest (limiterCache st) = rest).
Proof.
  intros Hinv. pose proof (invariant_NoDup _ _ Hinv) as Hnd.
  destruct Hinv as [_ _ _ He _]. unfold evict_oldest. split.
  - intros Hlt. destruct (Z.leb_spec MAX_LIMITER_CACHE_SIZE
                            (map_size (limiterCache st))); [lia | reflexivity].
  - intros Heq. rewrite Heq, Z.leb_refl.
    destruct (limiterCache st) as [| [k v] rest];
      [unfold map_size, MAX_LIMITER_CACHE_SIZE in Heq; simpl in Heq; lia |].
    exists (k, v), rest. split; [reflexivity |].
    cbn [map_first_key].
    inversion He as [| ? ? [[a Hk] _] _]; subst. simpl in Hk.
    assert (Ht : truthy_string k = true)
      by (rewrite Hk; apply cacheKey_truthy).
    rewrite Ht. now apply map_delete_first.
Qed.

Lemma evict_oldest_form (cache : JsMap RateLimiterRedis) :
  evict_oldest cache = cache \/
  exists k0, evict_oldest cache = map_delete k0 cache.
Proof.
  unfold evict_oldest.
  destruct (MAX_LIMITER_CACHE_SIZE <=? map_size cache); [| now left].
  destruct (map_first_key cache) as [k0 |]; [| now left].
  destruct (truthy_string k0); [right; now exists k0 | now left].
Qed.

Lemma map_get_delete_absent {V : Type} (m : JsMap V) (k k0 : string) :
  map_get k m = None -> map_get k (map_delete k0 m) = None.
Proof.
  rewrite !map_get_None, map_delete_keys. intros H Hin.
  apply filter_In in Hin. tauto.
Qed.

Lemma map_get_evict_absent (cache : JsMap RateLimiterRedis) (k : string) :
  map_get k cache = None -> map_get k (evict_oldest cache) = None.
Proof.
  intros H. destruct (evict_oldest_form cache) as [-> | [k0 ->]]; trivial.
  now apply map_get_delete_absent.
Qed.

(** The two ways [getLimiter] goes once validation has passed. *)
Lemma acquire_hit (args : RateLimitDirectiveArgs) (st : DirectiveState)
    (u : unit) (limiter : RateLimiterRedis) :
  validateDirectiveArgs float_digits args = Normal u ->
  map_get (key args) (limiterCache st) = Some limiter ->
  acquire args st
  = (Normal limiter,
     mkState (map_delete (key args) (limiterCache st) ++ [(key args, limiter)])
       (constructed st)).
Proof.
  intros Hv Hg. unfold getLimiter. rewrite Hv, Hg.
  now rewrite map_set_absent by apply map_get_delete.
Qed.

Lemma acquire_miss (args : RateLimitDirectiveArgs) (st : DirectiveState)
    (u : unit) :
  validateDirectiveArgs float_digits args = Normal u ->
  map_get (key args) (limiterCache st) = None ->
  let opts := ctor_options limiterOptions args in
  let limiter := mkLimiter (constructed st) opts in
  acquire args st
  = match limiterClass opts with
    | Throw e =>
        (Throw e,
         mkState (evict_oldest (limiterCache st)) (S (constructed st)))
    | Normal _ =>
        (Normal limiter,
         mkState (evict_oldest (limiterCache st) ++ [(key args, limiter)])
           (S (constructed st)))
    end.
Proof.
  intros Hv Hg. cbv zeta. unfold getLimiter. rewrite Hv, Hg.
  destruct (limiterClass _); [| reflexivity].
  now rewrite map_set_absent by now apply map_get_evict_absent.
Qed.

(** Dropping entries keeps the invariant. *)
Lemma invariant_delete (st : DirectiveState) (h : list string)
    (k0 : string) (n : nat) :
  invariant st h -> (constructed st <= n)%nat ->
  invariant (mkState (map_delete k0 (limiterCache st)) n) h.
Proof.
  intros [Hs Ha Hz He Hu] Hn. constructor; cbn [limiterCache constructed].
  - rewrite map_delete_keys. now apply StronglySorted_filter.
  - rewrite map_delete_keys. rewrite Forall_forall in *.
    intros x Hx. apply filter_In in Hx. now apply Ha.
  - pose proof (map_delete_length (limiterCache st) k0).
    unfold map_size in *. lia.
  - rewrite Forall_forall in *. intros e Hin.
    apply map_delete_In in Hin. destruct (He e Hin). split; [assumption | lia].
  - intros e1 e2 H1 H2. apply Hu; eapply map_delete_In; eassumption.
Qed.

Lemma invariant_allocate (st : DirectiveState) (h : list string) (n : nat) :
  invariant st h -> (constructed st <= n)%nat ->
  invariant (mkState (limiterCache st) n) h.
Proof.
  intros [Hs Ha Hz He Hu] Hn. constructor; cbn [limiterCache constructed];
    trivial.
  rewrite Forall_forall in *. intros e Hin.
  destruct (He e Hin). split; [assumption | lia].
Qed.

Lemma invariant_evict (st : DirectiveState) (h : list string) (n : nat) :
  invariant st h -> (constructed st <= n)%nat ->
  invariant (mkState (evict_oldest (limiterCache st)) n) h.
Proof.
  intros Hinv Hn.
  destruct (evict_oldest_form (limiterCache st)) as [-> | [k0 ->]].
  - now apply invariant_allocate.
  - now apply invariant_delete.
Qed.

(** Appending a key that is absent, with an object that is not in the
    cache, keeps the invariant and makes the key the latest acquired. *)
Lemma invariant_touch (cache : JsMap RateLimiterRedis) (n : nat)
    (h : list string) (k : string) (limiter : RateLimiterRedis) :
  invariant (mkState cache n) h ->
  map_get k cache = None ->
  map_size cache < MAX_LIMITER_CACHE_SIZE ->
  (exists args, k = key args) ->
  (uid limiter < n)%nat ->
  (forall e, In e cache -> uid (snd e) <> uid limiter) ->
  invariant (mkState (cache ++ [(k, limiter)]) n) (k :: h).
Proof.
  intros [Hs Ha Hz He Hu] Hk Hlt Hkey Hid Hfresh.
  cbn [limiterCache constructed] in *.
  apply map_get_None in Hk.
  destruct (recency_touch h k (map_keys cache) Hs Ha Hk) as [Hs' Ha'].
  constructor; cbn [limiterCache constructed].
  - now rewrite map_keys_app.
  - now rewrite map_keys_app.
  - unfold map_size in *. rewrite length_app. simpl. lia.
  - apply Forall_app. split; [assumption |].
    constructor; [| constructor]. now split.
  - intros e1 e2 H1 H2 Heq.
    apply in_app_iff in H1 as [H1 | [<- | []]];
      apply in_app_iff in H2 as [H2 | [<- | []]]; auto.
    + now apply Hfresh in H1.
    + symmetry in Heq. now apply Hfresh in H2.
Qed.

Lemma invariant_hit (st : DirectiveState) (h : list string) (k : string)
    (limiter : RateLimiterRedis) :
  invariant st h ->
  map_get k (limiterCache st) = Some limiter ->
  invariant
    (mkState (map_delete k (limiterCache st) ++ [(k, limiter)])
       (constructed st))
    (k :: h).
Proof.
  intros Hinv Hg.
  pose proof (map_get_Some_In _ _ _ Hg) as Hin.
  pose proof (invariant_delete st h k (constructed st) Hinv (le_n _)) as Hd.
  destruct Hinv as [_ _ Hz He Hu].
  rewrite Forall_forall in He. destruct (He _ Hin) as [Hk Hid].
  apply invariant_touch; trivial.
  - apply map_get_delete.
  - pose proof (map_delete_length_present _ _ _ Hg).
    unfold map_size in *. lia.
  - intros e He' Heq.
    assert (e = (k, limiter)) as ->
        by (apply Hu; trivial; eapply map_delete_In; eassumption).
    pose proof (map_get_delete (limiterCache st) k) as Habs.
    apply map_get_None in Habs. apply Habs.
    change k with (fst (k, limiter)). now apply in_map.
Qed.

Lemma invariant_miss (st : DirectiveState) (h : list string) (k : string)
    (opts : LimiterCtorOptions) :
  invariant st h ->
  map_get k (limiterCache st) = None ->
  (exists args, k = key args) ->
  invariant
    (mkState
       (evict_oldest (limiterCache st)
        ++ [(k, mkLimiter (constructed st) opts)])
       (S (constructed st)))
    (k :: h).
Proof.
  intros Hinv Hg Hk.
  pose proof (invariant_evict st h (S (constructed st)) Hinv
                ltac:(lia)) as Hev.
  apply invariant_touch; trivial.
  - now apply map_get_evict_absent.
  - destruct (evict_oldest_spec st h Hinv) as [Hbelow Hfull].
    destruct Hinv as [_ _ Hz _ _].
    destruct (Z.eq_dec (map_size (limiterCache st)) MAX_LIMITER_CACHE_SIZE)
      as [Heq | Hne].
    + destruct (Hfull Heq) as (oldest & rest & Hc & ->).
      rewrite Hc in Heq. unfold map_size in *. simpl in Heq. lia.
    + rewrite Hbelow; lia.
  - simpl. lia.
  - intros e Hin. simpl.
    destruct Hinv as [_ _ _ He _]. rewrite Forall_forall in He.
    assert (In e (limiterCache st)) as Hin'.
    { destruct (evict_oldest_form (limiterCache st)) as [E | [k0 E]];
        rewrite E in Hin; [assumption | eapply map_delete_In; eassumption]. }
    destruct (He e Hin'). lia.
Qed.

(** Every [getLimiter] call keeps the invariant. *)
Lemma step_invariant (st : DirectiveState) (h : list string)
    (args : RateLimitDirectiveArgs) :
  invariant st h ->
  invariant (fst (step (st, h) args)) (snd (step (st, h) args)).
Proof.
  intros Hinv. unfold call. cbn [fst snd].
  destruct (validateDirectiveArgs float_digits args) as [u | e] eqn:Hv.
  - destruct (map_get (key args) (limiterCache st)) as [l |] eqn:Hg.
    + rewrite (acquire_hit _ _ _ _ Hv Hg). now apply invariant_hit.
    + rewrite (acquire_miss _ _ _ Hv Hg).
      destruct (limiterClass _); cbn [fst snd].
      * apply invariant_miss; trivial. now exists args.
      * apply invariant_evict; [assumption | lia].
  - unfold getLimiter. now rewrite Hv.
Qed.

Lemma fold_invariant (calls : list RateLimitDirectiveArgs)
    (sh : DirectiveState * list string) :
  invariant (fst sh) (snd sh) ->
  invariant (fst (fold_left step calls sh)) (snd (fold_left step calls sh)).
Proof.
  revert sh. induction calls as [| a calls IH]; intros [st h] Hinv;
    [assumption |].
  simpl. apply IH. now apply step_invariant.
Qed.

Lemma run_invariant (calls : list RateLimitDirectiveArgs) :
  invariant (after calls)
            (history_after float_digits limiterClass limiterOptions calls).
Proof. apply fold_invariant, invariant_initial. Qed.

Lemma getLimiter_validated (args : RateLimitDirectiveArgs)
    (st st' : DirectiveState) (limiter : RateLimiterRedis) :
  acquire args st = (Normal limiter, st') ->
  validateDirectiveArgs float_digits args = Normal tt.
Proof.
  unfold getLimiter.
  destruct (validateDirectiveArgs float_digits args) as [[] |];
    [reflexivity | discriminate].
Qed.

(** C6: after any sequence of [getLimiter] calls on a directive the cache
    holds at most [MAX_LIMITER_CACHE_SIZE] = 100 entries, in recency order
    (each key was last acquired before every key that follows it).  A call
    that returns a limiter leaves its entry last, the latest acquired; on
    a key that was cached the other entries are kept; on a new key they
    are all kept while the cache holds fewer than 100 entries, and when it
    holds 100 exactly the first one, the least recently acquired, is
    removed. *)
Theorem limiter_cache_is_lru (calls : list RateLimitDirectiveArgs) :
  let st := state_after float_digits limiterClass limiterOptions calls in
  let h := history_after float_digits limiterClass limiterOptions calls in
  map_size (limiterCache st) <= MAX_LIMITER_CACHE_SIZE /\
  StronglySorted (older h) (map_keys (limiterCache st)) /\
  forall args limiter st',
    acquire args st = (Normal limiter, st') ->
    exists rest,
      limiterCache st' = rest ++ [(key args, limiter)] /\
      Forall (fun k => older (key args :: h) k (key args)) (map_keys rest) /\
      (map_get (key args) (limiterCache st) <> None ->
       rest = map_delete (key args) (limiterCache st)) /\
      (map_get (key args) (limiterCache st) = None ->
       (map_size (limiterCache st) < MAX_LIMITER_CACHE_SIZE ->
        rest = limiterCache st) /\
       (map_size (limiterCache st) = MAX_LIMITER_CACHE_SIZE ->
        exists oldest,
          limiterCache st = oldest :: rest /\
          Forall (older h (fst oldest)) (map_keys rest))).
Proof.
  intros st h. pose proof (run_invariant calls) as Hinv.
  fold st h in Hinv.
  split; [apply Hinv | split; [apply Hinv |]].
  intros args limiter st' Hcall.
  pose proof (getLimiter_validated _ _ _ _ Hcall) as Hv.
  pose proof (step_invariant st h args Hinv) as Hnext.
  unfold call in Hnext. cbn [fst snd] in Hnext. rewrite Hcall in Hnext.
  cbn [fst snd] in Hnext.
  assert (Hlast : forall rest,
             limiterCache st' = rest ++ [(key args, limiter)] ->
             Forall (fun k => older (key args :: h) k (key args))
               (map_keys rest)).
  { intros rest Hc. destruct Hnext as [Hs _ _ _ _].
    rewrite Hc, map_keys_app in Hs. clear - Hs.
    induction (map_keys rest) as [| a l IH]; [constructor |].
    simpl in Hs. inversion Hs as [| ? ? Hs' Hall]; subst.
    constructor; [| auto].
    rewrite Forall_forall in Hall. apply Hall, in_or_app. right. now left. }
  destruct (map_get (key args) (limiterCache st)) as [l |] eqn:Hg.
  - rewrite (acquire_hit _ _ _ _ Hv Hg) in Hcall.
    injection Hcall as <- <-. eexists. cbn [limiterCache].
    split; [reflexivity |]. split; [now apply Hlast |].
    split; [reflexivity | discriminate].
  - rewrite (acquire_miss _ _ _ Hv Hg) in Hcall.
    destruct (limiterClass _); [| discriminate].
    injection Hcall as <- <-. eexists. cbn [limiterCache].
    split; [reflexivity |]. split; [now apply Hlast |].
    split; [congruence |]. intros _.
    destruct (evict_oldest_spec st h Hinv) as [Hbelow Hfull].
    split; [assumption |].
    intros Heq. destruct (Hfull Heq) as (oldest & rest & Hc & Hr).
    exists oldest. rewrite Hr. split; [assumption |].
    destruct Hinv as [Hs _ _ _ _]. rewrite Hc in Hs. simpl in Hs.
    now inversion Hs.
Qed.

(** *** Sharing of limiters *)







Lemma same_quota_valid (a b : RateLimitDirectiveArgs) :
  valid_quota a -> same_quota a b -> valid_quota b.
Proof.
  intros (la & da & Hla & Hda & Rl & Rd) (l & d & Hl & Hl' & Hd & Hd').
  pose proof (denotes_fun _ _ _ Hla Hl). pose proof (denotes_fun _ _ _ Hda Hd).
  subst. now exists l, d.
Qed.

Lemma same_quota_refl (a : RateLimitDirectiveArgs) :
  valid_quota a -> same_quota a a.
Proof. intros (l & d & Hl & Hd & _). now exists l, d. Qed.


End CacheProperties.

(** ** Key generators *)

Local Open Scope string_scope.

Lemma GraphQL_name_no_dot (s : string) :
  GraphQL_name s = true -> occurs "." s = false.
Proof.
  assert (Hc : forall a, name_continue a = true -> Ascii.eqb a "." = false).
  { intros a Ha. destruct (Ascii.eqb_spec a "."%char) as [-> |]; trivial.
    discriminate. }
  assert (Hall : forall t, all_chars name_continue t = true ->
                           occurs "." t = false).
  { induction t as [| a t IH]; cbn [all_chars]; [reflexivity |].
    intros H. apply andb_true_iff in H as [Ha Ht].
    now rewrite occurs_cons, (Hc a Ha), (IH Ht). }
  destruct s as [| a s]; [discriminate |]. cbn [GraphQL_name].
  intros H. apply andb_true_iff in H as [Ha Hs].
  rewrite occurs_cons, (Hall s Hs), Hc; [reflexivity |].
  unfold name_continue. now rewrite Ha.
Qed.

(** C9: the default key is a function of the parent type name and of the
    field name alone, whatever the other arguments: two invocations with
    the same two names get the same key, and two invocations that differ
    in parent type name or in field name get different keys.  The parent
    type names are names of object types of a schema, hence GraphQL
    names. *)
Theorem defaultKeyGenerator_separates_operations
    {Source ResolverArgs TContext : Type}
    (args args' : RateLimitDirectiveArgs) (source source' : Source)
    (resolverArgs resolverArgs' : ResolverArgs) (context context' : TContext)
    (info info' : GraphQLResolveInfo) :
  GraphQL_name (parentType_name info) = true ->
  GraphQL_name (parentType_name info') = true ->
  let key := defaultKeyGenerator args source resolverArgs context info in
  let key' := defaultKeyGenerator args' source' resolverArgs' context' info' in
  (parentType_name info = parentType_name info' ->
   fieldName info = fieldName info' -> key = key') /\
  (parentType_name info <> parentType_name info' \/
   fieldName info <> fieldName info' ->
   key <> key').
Proof.
  intros Hp Hp'. cbv zeta. unfold defaultKeyGenerator, operationId. split.
  - now intros -> ->.
  - intros Hdiff Heq.
    apply append_separator_inj in Heq as [E1 E2];
      [| now apply GraphQL_name_no_dot ..].
    destruct Hdiff; contradiction.
Qed.

(** C10: when every identifier is [null] or [undefined], the composite
    key is ":" followed by the parent type name, "." and the field name:
    the separator stays although no identifier precedes it. *)
Theorem composite_key_without_identifiers
    {Source ResolverArgs TContext : Type}
    (getIdentifiers : TContext -> list (string * option string))
    (args : RateLimitDirectiveArgs) (source : Source)
    (resolverArgs : ResolverArgs) (context : TContext)
    (info : GraphQLResolveInfo) :
  Forall (fun entry => snd entry = None) (getIdentifiers context) ->
  createCompositeKeyGenerator getIdentifiers args source resolverArgs
    context info
  = ":" ++ parentType_name info ++ "." ++ fieldName info.
Proof.
  intros Hnone. unfold createCompositeKeyGenerator.
  replace (filter entry_present (getIdentifiers context))
    with (@nil (string * option string)); [reflexivity |].
  induction Hnone as [| [k v] l Hv _ IH]; [reflexivity |].
  simpl in *. unfold entry_present at 1. simpl. now rewrite Hv.
Qed.

(** ** The errors built by the handlers *)


(* ================================================================= *)
(** * The properties on the sample configuration *)

Local Open Scope list_scope.

(** A limit of zero is refused, and the resolver of [Query.test] is not
    called. *)
Lemma validation_accepts_exactly_valid_quotas_witness :
  let args := mkArgs (num 60) (num 0) in
  ~ valid_quota args /\
  resolver_invoked
    (trace_of (Sample.invoke args [] (OpReturn "success"%string))) = false.
Proof.
  cbv zeta.
  assert (Hn : ~ valid_quota (mkArgs (num 60) (num 0))).
  { intros Hv. apply (validate_valid Sample.digits) in Hv.
    vm_compute in Hv. discriminate. }
  split; [exact Hn |].
  exact (proj2 (proj2 (validation_accepts_exactly_valid_quotas
                         Sample.digits Sample.keyGenerator Sample.limiterClass
                         Sample.limiterOptions
                         Sample.consume (fun _ _ _ _ => OpReturn "success"%string)
                         (mkArgs (num 60) (num 0))) Hn)
           tt tt tt Sample.info (mkWorld initial_state [])).
Defined.

(** The end-to-end case of the test suite: a rejection with
    [msBeforeNext = 5000] gives a retry hint of 5 seconds. *)
Lemma quota_rejection_classified_witness :
  let e := JsObject (mkErrorObject (MessageString "Rate limit exceeded")
                       (Some (num 5000)) None) in
  let r := Sample.invoke (mkArgs (num 60) (num 1)) [Rejected e]
             (OpReturn "success"%string) in
  outcome_of r = Rejected (rateLimitedError (num 5000)) /\
  thrown_extensions (rateLimitedError (num 5000))
  = Some (mkExtensions "RATE_LIMITED" (mkHttp 429) (Some (num 5))) /\
  (exists ext n,
      thrown_extensions (rateLimitedError (num 5000)) = Some ext /\
      retryAfter ext = Some (num n) /\ 1000 * (n - 1) < 5000 <= 1000 * n) /\
  resolver_invoked (trace_of r) = false.
Proof.
  cbv zeta.
  pose (limiter := Sample.limiter 0 60 1).
  destruct (quota_rejection_classified
              Sample.digits Sample.keyGenerator Sample.limiterClass
              Sample.limiterOptions
              Sample.consume (fun _ _ _ _ => OpReturn "success"%string)
              (mkArgs (num 60) (num 1)) tt tt tt Sample.info
              (mkWorld initial_state
                 [Rejected (JsObject (mkErrorObject
                                        (MessageString "Rate limit exceeded")
                                        (Some (num 5000)) None))])
              "Query.test"%string limiter
              (mkState [("60:1"%string, limiter)] 1)
              (JsObject (mkErrorObject (MessageString "Rate limit exceeded")
                           (Some (num 5000)) None))
              (num 5000) []
              eq_refl eq_refl eq_refl eq_refl)
    as (Hout & _ & (ext & Hext & _ & _ & _ & Hint) & Hop).
  split; [exact Hout |]. split; [vm_compute; reflexivity |].
  split; [| exact Hop].
  destruct (Hint 5000 (denotes_num 5000) ltac:(vm_compute; reflexivity))
    as (n & Hn & Hb).
  now exists ext, n.
Defined.

(** C3, on a failing input: [consume] rejects with a connection failure as
    the Redis client words it, which has no numeric [msBeforeNext] and no
    "Redis" in its message.  The protected resolver is not called, but the
    wrapper rejects with the failure itself, not with the
    service-unavailable error that the connection failure of the test
    suite, whose message names Redis, is answered with. *)
Theorem store_failure_without_Redis_rethrown :
  let e := new_Error "connect ECONNREFUSED 127.0.0.1:6379" in
  let r := Sample.invoke (mkArgs (num 60) (num 5)) [Rejected e]
             (OpReturn "success"%string) in
  let e' := new_Error "Redis connection failed" in
  let r' := Sample.invoke (mkArgs (num 60) (num 5)) [Rejected e']
              (OpReturn "success"%string) in
  numeric_msBeforeNext e = None /\
  consume_invoked (trace_of r) = true /\
  resolver_invoked (trace_of r) = false /\
  outcome_of r = Rejected e /\
  outcome_of r <> Rejected serviceUnavailableError /\
  numeric_msBeforeNext e' = None /\
  outcome_of r' = Rejected serviceUnavailableError.
Proof.
  cbv zeta.
  split; [reflexivity |]. split; [reflexivity |]. split; [reflexivity |].
  split; [reflexivity |]. split; [discriminate |].
  split; reflexivity.
Qed.

(** C4, on a failing input: the protected resolver throws an error of its
    own whose message names Redis, after validation, key generation and
    [consume] succeeded.  The wrapper rejects with the service-unavailable
    error in its place, whereas the same error in a rejected promise goes
    through unchanged. *)
Theorem resolver_failure_naming_Redis_reclassified :
  let e := new_Error "Redis cache miss for user 42" in
  let thrown := Sample.invoke (mkArgs (num 60) (num 5)) [Fulfilled tt]
                  (OpThrow e) in
  let rejected := Sample.invoke (mkArgs (num 60) (num 5)) [Fulfilled tt]
                    (OpReject e) in
  resolver_invoked (trace_of thrown) = true /\
  outcome_of thrown = Rejected serviceUnavailableError /\
  outcome_of thrown <> Rejected e /\
  outcome_of rejected = Rejected e.
Proof.
  cbv zeta. repeat split. discriminate.
Qed.

(** A resolver that throws [null] is answered with a [TypeError]. *)
Lemma resolver_throwing_null_masked :
  outcome_of (Sample.invoke (mkArgs (num 60) (num 5)) [Fulfilled tt]
                (OpThrow JsNullish))
  = Rejected JsTypeError.
Proof. reflexivity. Qed.

(** With a limit of zero the key generator is called all the same. *)
Lemma key_generator_called_on_invalid_arguments :
  let args := mkArgs (num 60) (num 0) in
  let r := Sample.invoke args [] (OpReturn "success"%string) in
  ~ valid_quota args /\
  keyGenerator_invoked (trace_of r) = true.
Proof.
  cbv zeta. split; [| reflexivity].
  intros Hv. apply (validate_valid Sample.digits) in Hv.
  vm_compute in Hv. discriminate.
Qed.

Lemma validation_follows_key_generation_witness :
  let args := mkArgs (num 60) (num 0) in
  let r := Sample.invoke args [] (OpReturn "success"%string) in
  ~ valid_quota args /\
  trace_of r = [EvKeyGenerator] /\
  outcome_of r
  = Rejected (new_Error "Invalid rate limit: 0. Must be a positive integer.").
Proof.
  cbv zeta.
  assert (Hn : ~ valid_quota (mkArgs (num 60) (num 0))).
  { intros Hv. apply (validate_valid Sample.digits) in Hv.
    vm_compute in Hv. discriminate. }
  split; [exact Hn |].
  destruct (validation_follows_key_generation
              Sample.digits Sample.keyGenerator Sample.limiterClass
              Sample.limiterOptions
              Sample.consume (fun _ _ _ _ => OpReturn "success"%string)
              (mkArgs (num 60) (num 0)) tt tt tt Sample.info
              (mkWorld initial_state []) Hn) as (Htrace & _ & _ & Hfail).
  split; [exact Htrace |].
  destruct (Hfail "Query.test"%string eq_refl) as (e & _ & _ & Hout & _).
  reflexivity.
Defined.





(** A cache filled with the quotas of limits 1 to 100, then a call with
    limit 101: the entry of limit 1, the least recently acquired, makes
    room. *)
Lemma limiter_cache_is_lru_witness :
  let acquire := getLimiter Sample.digits Sample.limiterClass
                            Sample.limiterOptions in
  let st := state_after Sample.digits Sample.limiterClass Sample.limiterOptions
              (Sample.quotas 1 100) in
  let args := mkArgs (num 60) (num 101) in
  let limiter := Sample.limiter 100 60 101 in
  map_size (limiterCache st) = MAX_LIMITER_CACHE_SIZE /\
  exists rest oldest,
    limiterCache (snd (acquire args st)) = rest ++ [("60:101"%string, limiter)] /\
    limiterCache st = oldest :: rest /\
    fst oldest = "60:1"%string.
Proof.
  cbv zeta.
  pose (st := state_after Sample.digits Sample.limiterClass
                          Sample.limiterOptions
                (Sample.quotas 1 100)).
  pose (args := mkArgs (num 60) (num 101)).
  pose (limiter := Sample.limiter 100 60 101).
  assert (Hsize : map_size (limiterCache st) = MAX_LIMITER_CACHE_SIZE)
    by (vm_compute; reflexivity).
  assert (Hcall : getLimiter Sample.digits Sample.limiterClass
                             Sample.limiterOptions args st
                  = (Normal limiter,
                     snd (getLimiter Sample.digits Sample.limiterClass
                                     Sample.limiterOptions args st)))
    by (vm_compute; reflexivity).
  assert (Hnew : map_get (cacheKey Sample.digits args) (limiterCache st) = None)
    by (vm_compute; reflexivity).
  split; [exact Hsize |].
  destruct (limiter_cache_is_lru Sample.digits Sample.limiterClass
                                 Sample.limiterOptions
              (Sample.quotas 1 100)) as (_ & _ & Hstep).
  destruct (Hstep args limiter _ Hcall) as (rest & Hlast & _ & _ & Hmiss).
  destruct (proj2 (Hmiss Hnew) Hsize) as (oldest & Hcache & _).
  exists rest, oldest. split; [exact Hlast | split; [exact Hcache |]].
  assert (Hfirst : map_first_key (limiterCache st) = Some "60:1"%string)
    by (vm_compute; reflexivity).
  fold st in Hcache. rewrite Hcache in Hfirst.
  destruct oldest as [k0 l0]. cbn [map_first_key] in Hfirst.
  now injection Hfirst as ->.
Defined.

(** The two parent types of the test suite. *)
Lemma defaultKeyGenerator_separates_operations_witness :
  let args := mkArgs (num 60) (num 10) in
  defaultKeyGenerator args tt tt tt (mkInfo "Query" "test")
  <> defaultKeyGenerator args tt tt tt (mkInfo "Mutation" "test").
Proof.
  cbv zeta.
  apply (proj2 (defaultKeyGenerator_separates_operations
                  (mkArgs (num 60) (num 10)) (mkArgs (num 60) (num 10))
                  tt tt tt tt tt tt
                  (mkInfo "Query" "test") (mkInfo "Mutation" "test")
                  eq_refl eq_refl)).
  left. simpl. discriminate.
Defined.

(** The case of the test suite: an empty context, neither [apiKey] nor
    [userId]. *)
Lemma composite_key_without_identifiers_witness :
  createCompositeKeyGenerator
    (fun _ : unit => [("apiKey"%string, None); ("userId"%string, None)])
    (mkArgs (num 60) (num 10)) tt tt tt (mkInfo "Query" "test")
  = ":Query.test"%string.
Proof.
  apply (composite_key_without_identifiers
           (fun _ : unit => [("apiKey"%string, None); ("userId"%string, None)])
           (mkArgs (num 60) (num 10)) tt tt tt (mkInfo "Query" "test")).
  repeat constructor.
Defined.

(* ================================================================= *)
(** * Further properties of the code *)

(** ** Which error the validator reports *)

Section ValidatorReports.

Variable float_digits : Q -> list numchar.
Local Abbreviation validate := (validateDirectiveArgs float_digits).
Local Abbreviation render := (Number_toString float_digits).

Lemma positive_integer_test (n : number) :
  negb (Number_isInteger n) || js_le n (num 0) = false <->
  exists z, denotes n z /\ 1 <= z.
Proof.
  split.
  - intros H. apply orb_false_iff in H as [Hi Hle].
    apply negb_false_iff, isInteger_denotes in Hi as [z Hz].
    rewrite (js_le_denotes _ _ 0 Hz) in Hle.
    exists z. split; [assumption | lia].
  - intros (z & Hz & Hpos).
    rewrite (proj2 (isInteger_denotes n) (ex_intro _ z Hz)).
    rewrite (js_le_denotes _ _ 0 Hz). simpl. lia.
Qed.

(** X1: the validator reports the first check that fails, in the order of
    the source: the limit is not a positive integer; else the duration is
    not a positive integer; else the duration exceeds 31536000; else the
    limit exceeds 1000000.  Each failure is an [Error] with the message of
    that check around the offending argument. *)
Theorem validation_reports_first_violation (args : RateLimitDirectiveArgs) :
  (~ (exists l, denotes (limit args) l /\ 1 <= l) ->
   validate args
   = Throw (new_Error ("Invalid rate limit: " ++ render (limit args)
                       ++ ". Must be a positive integer."))) /\
  (forall l, denotes (limit args) l -> 1 <= l ->
     (~ (exists d, denotes (duration args) d /\ 1 <= d) ->
      validate args
      = Throw (new_Error ("Invalid duration: " ++ render (duration args)
                          ++ ". Must be a positive integer (seconds)."))) /\
     (forall d, denotes (duration args) d -> 1 <= d ->
        (31536000 < d ->
         validate args
         = Throw (new_Error
                    ("Invalid duration: " ++ render (duration args)
                     ++ ". Maximum allowed is 31536000 seconds (1 year)."))) /\
        (d <= 31536000 -> 1000000 < l ->
         validate args
         = Throw (new_Error ("Invalid limit: " ++ render (limit args)
                             ++ ". Maximum allowed is 1000000."))))).
Proof.
  unfold validateDirectiveArgs. split.
  - intros Hn.
    destruct (negb (Number_isInteger (limit args))
              || js_le (limit args) (num 0)) eqn:E; [reflexivity |].
    now apply positive_integer_test in E.
  - intros l Hl Hpos.
    rewrite (proj2 (positive_integer_test (limit args)))
      by (exists l; now split).
    split.
    + intros Hn.
      destruct (negb (Number_isInteger (duration args))
                || js_le (duration args) (num 0)) eqn:E; [reflexivity |].
      now apply positive_integer_test in E.
    + intros d Hd Hdpos.
      rewrite (proj2 (positive_integer_test (duration args)))
        by (exists d; now split).
      rewrite (js_gt_denotes _ _ 31536000 Hd), (js_gt_denotes _ _ 1000000 Hl).
      split.
      * intros Hbig. now replace (31536000 <? d)%Z with true by lia.
      * intros Hsmall Hbig.
        replace (31536000 <? d)%Z with false by lia.
        now replace (1000000 <? l)%Z with true by lia.
Qed.

End ValidatorReports.

(** A limit and a duration that are both too large: the duration is the
    one reported. *)
Lemma validation_reports_first_violation_witness :
  validateDirectiveArgs Sample.digits
    (mkArgs (num 40000000) (num 2000000))
  = Throw (new_Error
             "Invalid duration: 40000000. Maximum allowed is 31536000 seconds (1 year).").
Proof.
  apply (proj1 (proj2 (proj2 (validation_reports_first_violation
                                Sample.digits
                                (mkArgs (num 40000000) (num 2000000)))
                         2000000 (denotes_num _) ltac:(lia))
                 40000000 (denotes_num _) ltac:(lia))).
  lia.
Defined.

(** ** The cache key *)

(** X2: on valid arguments the cache key is an exact encoding of the
    quota: two argument records get the same key exactly when they denote
    the same limit and the same duration. *)
Theorem cacheKey_encodes_quota (fd : Q -> list numchar)
    (a b : RateLimitDirectiveArgs) :
  valid_quota a -> valid_quota b ->
  (cacheKey fd a = cacheKey fd b <-> same_quota a b).
Proof.
  intros Ha Hb. split.
  - now apply cacheKey_inj.
  - now apply same_quota_cacheKey.
Qed.

(** The same quota written as two different fractions. *)
Lemma cacheKey_encodes_quota_witness :
  cacheKey Sample.digits (mkArgs (num 60) (num 10))
  = cacheKey Sample.digits (mkArgs (Fin (120 # 2)) (Fin (30 # 3))).
Proof.
  apply cacheKey_encodes_quota.
  - exists 10, 60. repeat split; try apply denotes_num; lia.
  - exists 10, 60. repeat split; try reflexivity; lia.
  - exists 10, 60. repeat split; try apply denotes_num; reflexivity.
Defined.

(** ** More on [getLimiter] *)

Section LimiterProperties.

Variable float_digits : Q -> list numchar.
Variable limiterClass : LimiterCtorOptions -> completion unit.
Variable limiterOptions : RateLimiterOptions.

Local Abbreviation acquire :=
  (getLimiter float_digits limiterClass limiterOptions).
Local Abbreviation key := (cacheKey float_digits).
Local Abbreviation step := (call float_digits limiterClass limiterOptions).
Local Abbreviation after :=
  (state_after float_digits limiterClass limiterOptions).

(** The entry was built by [getLimiter] for validated arguments: it is
    stored under their key and holds a limiter with their options. *)
Local Abbreviation built_for :=
  (fun e : string * RateLimiterRedis =>
     exists a, valid_quota a /\ fst e = key a /\
               options (snd e) = ctor_options limiterOptions a).

Lemma map_get_last {V : Type} (m : JsMap V) (k : string) (v : V) :
  map_get k m = None -> map_get k (m ++ [(k, v)]) = Some v.
Proof.
  intros H. rewrite map_get_app, H. simpl. now rewrite String.eqb_refl.
Qed.

Lemma map_delete_last {V : Type} (m : JsMap V) (k : string) (v : V) :
  map_get k m = None -> map_delete k (m ++ [(k, v)]) = m.
Proof.
  intros H. rewrite map_delete_app, (map_delete_absent _ _ H). simpl.
  rewrite String.eqb_refl. apply app_nil_r.
Qed.

(** A successful call leaves the entry it returns last in the cache, under
    a key that occurs nowhere else. *)
Lemma acquire_leaves_last (args : RateLimitDirectiveArgs)
    (st st' : DirectiveState) (limiter : RateLimiterRedis) :
  acquire args st = (Normal limiter, st') ->
  exists c, map_get (key args) c = None /\
            st' = mkState (c ++ [(key args, limiter)]) (constructed st').
Proof.
  intros Hcall.
  pose proof (getLimiter_validated _ _ _ _ _ _ _ Hcall) as Hv.
  destruct (map_get (key args) (limiterCache st)) as [l |] eqn:Hg.
  - rewrite (acquire_hit _ _ _ _ _ _ _ Hv Hg) in Hcall.
    injection Hcall as <- <-.
    exists (map_delete (key args) (limiterCache st)).
    split; [apply map_get_delete | reflexivity].
  - rewrite (acquire_miss _ _ _ _ _ _ Hv Hg) in Hcall.
    destruct (limiterClass _); [| discriminate].
    injection Hcall as <- <-.
    exists (evict_oldest (limiterCache st)).
    split; [now apply map_get_evict_absent | reflexivity].
Qed.

Lemma acquire_then_cached (args : RateLimitDirectiveArgs)
    (st st' : DirectiveState) (limiter : RateLimiterRedis) :
  acquire args st = (Normal limiter, st') ->
  map_get (key args) (limiterCache st') = Some limiter.
Proof.
  intros Hcall. destruct (acquire_leaves_last _ _ _ _ Hcall) as (c & Hc & ->).
  cbn [limiterCache]. now apply map_get_last.
Qed.

(** X3: a call that returned a limiter can be repeated at once: the same
    arguments give the same limiter again and leave the directive exactly
    as it was, cache order and number of constructions included.  This
    holds from any state. *)
Theorem getLimiter_repeat_is_noop (args : RateLimitDirectiveArgs)
    (st st' : DirectiveState) (limiter : RateLimiterRedis) :
  acquire args st = (Normal limiter, st') ->
  acquire args st' = (Normal limiter, st').
Proof.
  intros Hcall.
  pose proof (getLimiter_validated _ _ _ _ _ _ _ Hcall) as Hv.
  pose proof (acquire_then_cached _ _ _ _ Hcall) as Hg.
  destruct (acquire_leaves_last _ _ _ _ Hcall) as (c & Hc & Hst).
  rewrite (acquire_hit _ _ _ _ _ tt limiter Hv Hg). f_equal.
  rewrite Hst at 1. cbn [limiterCache].
  rewrite (map_delete_last _ _ _ Hc). now symmetry.
Qed.

(** The entries of the cache are built by [getLimiter]. *)
Lemma step_entries_built (st : DirectiveState) (h : list string)
    (args : RateLimitDirectiveArgs) :
  Forall built_for (limiterCache st) ->
  Forall built_for (limiterCache (fst (step (st, h) args))).
Proof.
  intros Hall. rewrite Forall_forall in *. unfold call. cbn [fst snd].
  assert (Hev : forall x, In x (evict_oldest (limiterCache st)) ->
                          In x (limiterCache st)).
  { intros x. destruct (evict_oldest_form (limiterCache st))
      as [-> | [k0 ->]]; [trivial | apply map_delete_In]. }
  destruct (validateDirectiveArgs float_digits args) as [[] |] eqn:Hv.
  - destruct (map_get (key args) (limiterCache st)) as [l |] eqn:Hg.
    + rewrite (acquire_hit _ _ _ _ _ _ _ Hv Hg). cbn [fst limiterCache].
      intros e Hin. apply Hall.
      apply in_app_iff in Hin as [Hin | [<- | []]].
      * eapply map_delete_In; eassumption.
      * now apply map_get_Some_In.
    + rewrite (acquire_miss _ _ _ _ _ _ Hv Hg).
      destruct (limiterClass _); cbn [fst limiterCache]; intros x Hin;
        [| auto].
      apply in_app_iff in Hin as [Hin | [<- | []]]; [auto |].
      exists args. cbn [fst snd options].
      split; [now apply validate_normal with float_digits tt |].
      split; reflexivity.
  - unfold getLimiter. rewrite Hv. cbn [fst]. auto.
Qed.

Lemma run_entries_built (calls : list RateLimitDirectiveArgs) :
  Forall built_for (limiterCache (after calls)).
Proof.
  unfold state_after, run.
  assert (H : forall (sh : DirectiveState * list string),
             Forall built_for (limiterCache (fst sh)) ->
             Forall built_for (limiterCache (fst (fold_left step calls sh)))).
  { induction calls as [| a calls IH]; intros [st h] Hall; [assumption |].
    cbn [fold_left]. pose proof (step_entries_built st h a Hall) as Hnext.
    destruct (step (st, h) a) as [st1 h1].
    now apply (IH (st1, h1)). }
  apply H. constructor.
Qed.

(** X4: after any sequence of calls on a directive, the limiter that
    [getLimiter] returns for some arguments, from the cache or not, was
    constructed with the options
    [{ duration, points: limit, ...limiterOptions }] of arguments of the
    same quota: its [points] is the [points] of [limiterOptions] when
    there is one and the limit of the arguments otherwise, and its
    [duration] is the [duration] of [limiterOptions] when there is one and
    the duration of the arguments otherwise. *)
Theorem getLimiter_returns_limiter_of_quota
    (calls : list RateLimitDirectiveArgs) (args : RateLimitDirectiveArgs)
    (limiter : RateLimiterRedis) (st' : DirectiveState) :
  acquire args (after calls) = (Normal limiter, st') ->
  (exists built, same_quota args built /\
                 options limiter = ctor_options limiterOptions built) /\
  (forall v, lo_points limiterOptions = Some v ->
             opt_points (options limiter) = v) /\
  (lo_points limiterOptions = None ->
   exists n l, opt_points (options limiter) = OptNumber n /\
               denotes n l /\ denotes (limit args) l) /\
  (forall v, lo_duration limiterOptions = Some v ->
             opt_duration (options limiter) = v) /\
  (lo_duration limiterOptions = None ->
   exists n d, opt_duration (options limiter) = OptNumber n /\
               denotes n d /\ denotes (duration args) d).
Proof.
  intros Hcall.
  pose proof (validate_normal _ _ _
                (getLimiter_validated _ _ _ _ _ _ _ Hcall)) as Hvalid.
  pose proof (step_entries_built (after calls) [] args
                (run_entries_built calls)) as Hall.
  unfold call in Hall. cbn [fst snd] in Hall.
  rewrite Hcall in Hall. cbn [fst] in Hall.
  destruct (acquire_leaves_last _ _ _ _ Hcall) as (c & _ & Hst).
  rewrite Hst in Hall. cbn [limiterCache] in Hall.
  apply Forall_app in Hall as [_ Hlast].
  inversion Hlast as [| ? ? (a & Ha & Hk & Ho) _]; subst.
  cbn [fst snd] in Hk, Ho.
  assert (Hsame : same_quota args a)
    by (apply (cacheKey_inj float_digits); trivial).
  split; [now exists a |].
  rewrite Ho. unfold ctor_options. cbn [opt_points opt_duration].
  destruct Hsame as (l & d & Hl & Hl' & Hd & Hd').
  split; [now intros v -> |]. split; [intros ->; now exists (limit a), l |].
  split; [now intros v -> |]. intros ->. now exists (duration a), d.
Qed.

(** X5: eviction comes before construction.  When the constructor throws
    on a new key, the error is what [getLimiter] throws and no entry is
    added; below 100 entries the cache is left as it was, but at 100
    entries the oldest entry is gone all the same. *)
Theorem failed_construction_still_evicts
    (calls : list RateLimitDirectiveArgs) (args : RateLimitDirectiveArgs)
    (e : js_value) :
  valid_quota args ->
  map_get (key args) (limiterCache (after calls)) = None ->
  limiterClass (ctor_options limiterOptions args) = Throw e ->
  let st := after calls in
  let st' := snd (acquire args st) in
  fst (acquire args st) = Throw e /\
  constructed st' = S (constructed st) /\
  map_get (key args) (limiterCache st') = None /\
  (map_size (limiterCache st) < MAX_LIMITER_CACHE_SIZE ->
   limiterCache st' = limiterCache st) /\
  (map_size (limiterCache st) = MAX_LIMITER_CACHE_SIZE ->
   exists oldest, limiterCache st = oldest :: limiterCache st').
Proof.
  intros Hvalid Hg Hctor st st'. subst st st'.
  pose proof (run_invariant float_digits limiterClass limiterOptions calls)
    as Hinv.
  rewrite (acquire_miss _ _ _ _ _ _
             (validate_valid float_digits _ Hvalid) Hg).
  rewrite Hctor. cbn [fst snd limiterCache constructed].
  destruct (evict_oldest_spec _ _ _ Hinv) as [Hbelow Hfull].
  repeat split; trivial.
  - now apply map_get_evict_absent.
  - intros Heq. destruct (Hfull Heq) as (oldest & rest & Hc & Hr).
    exists oldest. now rewrite Hr.
Qed.

End LimiterProperties.

(** ** More on the wrapped resolver *)

Section AdmissionProperties.

Variable float_digits : Q -> list numchar.
Context {Source ResolverArgs TContext Result Store : Type}.
Variable keyGenerator :
  RateLimitDirectiveArgs -> Source -> ResolverArgs -> TContext ->
  GraphQLResolveInfo -> completion string.
Variable limiterClass : LimiterCtorOptions -> completion unit.
Variable limiterOptions : RateLimiterOptions.
Variable consume : RateLimiterRedis -> string -> Store -> settled unit * Store.
Variable resolve :
  Source -> ResolverArgs -> TContext -> GraphQLResolveInfo -> op_outcome Result.

Local Abbreviation acquire :=
  (getLimiter float_digits limiterClass limiterOptions).
Local Abbreviation step := (call float_digits limiterClass limiterOptions).
Local Abbreviation wrapper :=
  (wrapped_resolve float_digits keyGenerator limiterClass limiterOptions
     consume resolve).
Local Abbreviation handle' :=
  (handle float_digits keyGenerator limiterClass limiterOptions consume
     resolve).
Local Abbreviation serve' :=
  (serve float_digits keyGenerator limiterClass limiterOptions consume
     resolve).

(** X6: admission is check-then-proceed.  Every run calls the key
    generator; it calls [consume] at most once, and exactly once when the
    key generator and [getLimiter] both return, with the key and the
    limiter they returned; and it calls the protected resolver exactly
    when that one [consume] call was fulfilled. *)
Theorem admission_is_check_then_proceed
    (args : RateLimitDirectiveArgs) (source : Source)
    (resolverArgs : ResolverArgs) (context : TContext)
    (info : GraphQLResolveInfo) (w : World) :
  let r := wrapper args source resolverArgs context info w in
  let generated := keyGenerator args source resolverArgs context info in
  keyGenerator_invoked (trace_of r) = true /\
  (consume_calls (trace_of r) <= 1)%nat /\
  (forall limiter k,
      In (EvConsume limiter k) (trace_of r) <->
      generated = Normal k /\
      fst (acquire args (directive w)) = Normal limiter) /\
  (resolver_invoked (trace_of r) = true <->
   exists k limiter u,
     generated = Normal k /\
     fst (acquire args (directive w)) = Normal limiter /\
     fst (consume limiter k (store w)) = Fulfilled u).
Proof.
  cbv zeta. unfold wrapped_resolve.
  destruct (keyGenerator args source resolverArgs context info)
    as [k0 | e0] eqn:Hk.
  2:{ cbn [trace_of fst snd]. split; [reflexivity |].
      split; [cbn; lia |]. split.
      - intros limiter k. split.
        + intros [Hin | []]. discriminate Hin.
        + intros [Hgen _]. discriminate Hgen.
      - split; [discriminate |].
        intros (k & l & u & Hgen & _). discriminate Hgen. }
  destruct (acquire args (directive w)) as [[l0 | e1] d] eqn:Hl.
  2:{ cbn [trace_of fst snd]. split; [reflexivity |].
      split; [cbn; lia |]. split.
      - intros limiter k. split.
        + intros [Hin | []]. discriminate Hin.
        + intros [_ Hacq]. discriminate Hacq.
      - split; [discriminate |].
        intros (k & l & u & _ & Hacq & _). discriminate Hacq. }
  assert (Hin : forall (tl : list event) limiter k,
             (tl = [] \/ tl = [EvResolve]) ->
             (In (EvConsume limiter k)
                (EvKeyGenerator :: EvConsume l0 k0 :: tl) <->
              Normal k0 = Normal k /\
              Normal l0 = @Normal RateLimiterRedis limiter)).
  { intros tl limiter k Htl. split.
    - intros [H | [H | H]].
      + discriminate H.
      + injection H as -> ->. now split.
      + destruct Htl as [-> | ->]; [destruct H |].
        destruct H as [H | []]. discriminate H.
    - intros [[= ->] [= ->]]. right. now left. }
  destruct (consume l0 k0 (store w)) as [[u0 | e2] s] eqn:Hc.
  - assert (Htrace : forall (o : op_outcome Result),
               trace_of
                 (match o with
                  | OpReturn r =>
                      (Fulfilled r,
                       [EvKeyGenerator; EvConsume l0 k0; EvResolve],
                       mkWorld d s)
                  | OpThrow e =>
                      (Rejected (outer_catch e),
                       [EvKeyGenerator; EvConsume l0 k0; EvResolve],
                       mkWorld d s)
                  | OpReject e =>
                      (Rejected e,
                       [EvKeyGenerator; EvConsume l0 k0; EvResolve],
                       mkWorld d s)
                  end)
               = [EvKeyGenerator; EvConsume l0 k0; EvResolve])
      by (now intros [r | e | e]).
    cbv zeta. rewrite Htrace. cbn [fst].
    split; [reflexivity |]. split; [cbn; lia |]. split.
    + intros limiter k. apply Hin. now right.
    + split; [| reflexivity].
      intros _. exists k0, l0, u0. rewrite Hc. now repeat split.
  - cbn [trace_of fst snd].
    split; [reflexivity |]. split; [cbn; lia |]. split.
    + intros limiter k. apply Hin. now left.
    + split; [discriminate |].
      intros (k & l & u & [= <-] & [= <-] & Hu). rewrite Hc in Hu.
      discriminate Hu.
Qed.

(** The directive state a run leaves is the one [getLimiter] leaves, when
    the key generator returned. *)
Lemma wrapper_directive
    (args : RateLimitDirectiveArgs) (source : Source)
    (resolverArgs : ResolverArgs) (context : TContext)
    (info : GraphQLResolveInfo) (w : World) :
  directive (world_of (wrapper args source resolverArgs context info w))
  = match keyGenerator args source resolverArgs context info with
    | Normal _ => snd (acquire args (directive w))
    | Throw _ => directive w
    end.
Proof.
  unfold wrapped_resolve.
  destruct (keyGenerator args source resolverArgs context info);
    [| reflexivity].
  destruct (acquire args (directive w)) as [[l | e] d]; [| reflexivity].
  destruct (consume l a (store w)) as [[u | e] s]; [| reflexivity].
  now destruct (resolve source resolverArgs context info).
Qed.

(** A [consume] call in the trace tells what the key generator and
    [getLimiter] returned. *)
Lemma consumed_means_acquired
    (args : RateLimitDirectiveArgs) (source : Source)
    (resolverArgs : ResolverArgs) (context : TContext)
    (info : GraphQLResolveInfo) (w : World)
    (limiter : RateLimiterRedis) (k : string) :
  let r := wrapper args source resolverArgs context info w in
  In (EvConsume limiter k) (trace_of r) ->
  keyGenerator args source resolverArgs context info = Normal k /\
  acquire args (directive w) = (Normal limiter, directive (world_of r)).
Proof.
  cbv zeta. rewrite wrapper_directive. unfold wrapped_resolve.
  destruct (keyGenerator args source resolverArgs context info)
    as [k0 | e0].
  2:{ cbn [trace_of fst snd In]. intros [H | []]. discriminate H. }
  destruct (acquire args (directive w)) as [[l0 | e1] d].
  2:{ cbn [trace_of fst snd In]. intros [H | []]. discriminate H. }
  cbn [snd].
  assert (Hin : forall tl : list event,
             (tl = [] \/ tl = [EvResolve]) ->
             In (EvConsume limiter k)
               (EvKeyGenerator :: EvConsume l0 k0 :: tl) ->
             Normal k0 = Normal k /\
             (@Normal RateLimiterRedis l0, d) = (Normal limiter, d)).
  { intros tl Htl [H | [H | H]].
    - discriminate H.
    - injection H as -> ->. now split.
    - destruct Htl as [-> | ->]; [destruct H |].
      destruct H as [H | []]. discriminate H. }
  destruct (consume l0 k0 (store w)) as [[u0 | e2] s].
  - destruct (resolve source resolverArgs context info);
      cbn [trace_of fst snd]; apply Hin; now right.
  - cbn [trace_of fst snd]. apply Hin. now left.
Qed.

(** X8: fields with the same quota share one limiter across requests.
    When a request consumed on a limiter, the next request on the same
    directive whose field has the same limit and duration consumes on that
    same limiter object, under the key of its own key generation, and no
    limiter is constructed for it. *)
Theorem same_quota_requests_share_limiter
    (rq1 rq2 : Request Source ResolverArgs TContext) (w : World)
    (limiter : RateLimiterRedis) (k1 k2 : string) :
  In (EvConsume limiter k1) (trace_of (handle' rq1 w)) ->
  same_quota (req_directive rq1) (req_directive rq2) ->
  keyGenerator (req_directive rq2) (req_source rq2) (req_args rq2)
    (req_context rq2) (req_info rq2) = Normal k2 ->
  let w1 := world_of (handle' rq1 w) in
  In (EvConsume limiter k2) (trace_of (handle' rq2 w1)) /\
  constructed (directive (world_of (handle' rq2 w1)))
  = constructed (directive w1).
Proof.
  intros Hin Hsame Hk2 w1.
  pose proof (consumed_means_acquired _ _ _ _ _ _ _ _ Hin) as H1.
  fold (handle' rq1 w) in H1. fold w1 in H1.
  destruct H1 as [_ Hcall].
  pose proof (validate_normal _ _ _
                (getLimiter_validated _ _ _ _ _ _ _ Hcall)) as Hvalid.
  pose proof (acquire_then_cached _ _ _ _ _ _ _ Hcall) as Hg.
  rewrite (same_quota_cacheKey float_digits _ _ Hvalid Hsame) in Hg.
  pose proof (acquire_hit float_digits limiterClass limiterOptions _ _ tt _
                (validate_valid float_digits _
                   (same_quota_valid _ _ Hvalid Hsame)) Hg) as Hcall2.
  split.
  - unfold handle at 1, wrapped_resolve. rewrite Hk2, Hcall2.
    destruct (consume limiter k2 (store w1)) as [[u | e] s].
    + destruct (resolve _ _ _ _); cbn [trace_of fst snd]; right; now left.
    + cbn [trace_of fst snd]. right. now left.
  - unfold handle at 1. rewrite wrapper_directive, Hk2, Hcall2. reflexivity.
Qed.

(** The key generator of a request returned a key. *)
Local Abbreviation generated rq :=
  (match keyGenerator (req_directive rq) (req_source rq) (req_args rq)
           (req_context rq) (req_info rq) with
   | Normal _ => true
   | Throw _ => false
   end).

Lemma serve_directive
    (requests : list (Request Source ResolverArgs TContext))
    (w : World) (h : list string) :
  directive (serve' requests w)
  = fst (fold_left step
           (List.map req_directive
              (List.filter (fun rq => generated rq) requests))
           (directive w, h)).
Proof.
  revert w h. induction requests as [| rq requests IH]; intros w h;
    [reflexivity |].
  unfold serve. cbn [fold_left List.filter]. fold (serve' requests).
  destruct (keyGenerator (req_directive rq) (req_source rq) (req_args rq)
              (req_context rq) (req_info rq)) as [k | e] eqn:Hk.
  - cbn [List.map fold_left].
    assert (Hd : directive (world_of (handle' rq w))
                 = fst (step (directive w, h) (req_directive rq))).
    { unfold handle. rewrite wrapper_directive, Hk. unfold call.
      cbn [fst snd].
      now destruct (acquire (req_directive rq) (directive w)) as [[l | e] d]. }
    destruct (step (directive w, h) (req_directive rq)) as [st1 h1].
    cbn [fst] in Hd. rewrite <- Hd. apply IH.
  - assert (Hw : world_of (handle' rq w) = w)
      by (unfold handle, wrapped_resolve; now rewrite Hk).
    rewrite Hw. apply IH.
Qed.

(** X9: whatever the traffic, the directive behind the wrapped resolvers
    is in the state that the [getLimiter] calls of the requests whose key
    generation succeeded lead to, in the order of the requests; neither
    the outcomes of [consume] nor those of the resolvers have a say.  In
    particular its cache never holds more than 100 limiters. *)
Theorem traffic_keeps_cache_bounded
    (requests : list (Request Source ResolverArgs TContext)) (s : Store) :
  let w := serve' requests (mkWorld initial_state s) in
  directive w
  = state_after float_digits limiterClass limiterOptions
      (List.map req_directive
         (List.filter (fun rq => generated rq) requests)) /\
  map_size (limiterCache (directive w)) <= MAX_LIMITER_CACHE_SIZE.
Proof.
  cbv zeta.
  assert (Hd : directive (serve' requests (mkWorld initial_state s))
               = state_after float_digits limiterClass limiterOptions
                   (List.map req_directive
                      (List.filter (fun rq => generated rq) requests)))
    by (unfold state_after, run; apply serve_directive).
  split; [exact Hd |]. rewrite Hd.
  apply (run_invariant float_digits limiterClass limiterOptions).
Qed.

End AdmissionProperties.

(** ** More on the key generators *)

Local Open Scope string_scope.

Lemma string_append_assoc (a b c : string) : (a ++ b) ++ c = a ++ b ++ c.
Proof. induction a as [| x a IH]; simpl; [reflexivity | now rewrite IH]. Qed.

Lemma string_length_append (a b : string) :
  String.length (a ++ b) = (String.length a + String.length b)%nat.
Proof. induction a as [| x a IH]; simpl; [reflexivity | now rewrite IH]. Qed.

Lemma string_append_cancel_l (p a b : string) : p ++ a = p ++ b -> a = b.
Proof.
  induction p as [| x p IH]; simpl; [trivial |]. intros [= H]. auto.
Qed.

Lemma string_append_cancel_r (s a b : string) : a ++ s = b ++ s -> a = b.
Proof.
  revert b. induction a as [| x a IH]; intros [| y b] H.
  - reflexivity.
  - simpl in H. apply (f_equal String.length) in H. simpl in H.
    rewrite string_length_append in H. lia.
  - simpl in H. apply (f_equal String.length) in H. simpl in H.
    rewrite string_length_append in H. lia.
  - simpl in H. injection H as -> H. f_equal. auto.
Qed.

(** A key made of a tag, an identity and the operation tells the identity,
    for a given operation. *)
Lemma tagged_key_inj (tag a b op : string) :
  tag ++ a ++ ":" ++ op = tag ++ b ++ ":" ++ op -> a = b.
Proof.
  intros H. apply string_append_cancel_l in H.
  now apply string_append_cancel_r in H.
Qed.

(** X10: on a given field, the per-user key generator gives two contexts
    the same key exactly when they resolve to the same user id, a missing
    ([null], [undefined]) or empty id counting as "anonymous"; for such a
    context the key is "user:anonymous:" followed by the operation. *)
Theorem user_key_identifies_user
    {Source ResolverArgs TContext : Type}
    (getUserId : TContext -> option string)
    (args args' : RateLimitDirectiveArgs) (source source' : Source)
    (resolverArgs resolverArgs' : ResolverArgs) (context context' : TContext)
    (info : GraphQLResolveInfo) :
  (createUserKeyGenerator getUserId args source resolverArgs context info
   = createUserKeyGenerator getUserId args' source' resolverArgs' context' info
   <-> or_default (getUserId context) "anonymous"
       = or_default (getUserId context') "anonymous") /\
  (getUserId context = None \/ getUserId context = Some "" ->
   createUserKeyGenerator getUserId args source resolverArgs context info
   = "user:anonymous:" ++ parentType_name info ++ "." ++ fieldName info).
Proof.
  unfold createUserKeyGenerator. cbv zeta. split.
  - split; [apply tagged_key_inj | now intros ->].
  - intros [-> | ->]; reflexivity.
Qed.

(** X11: on a given field, the per-address key generator gives two
    contexts the same key exactly when they resolve to the same address, a
    missing or empty address counting as "unknown"; for such a context the
    key is "ip:unknown:" followed by the operation. *)
Theorem ip_key_identifies_address
    {Source ResolverArgs TContext : Type}
    (getIP : TContext -> option string)
    (args args' : RateLimitDirectiveArgs) (source source' : Source)
    (resolverArgs resolverArgs' : ResolverArgs) (context context' : TContext)
    (info : GraphQLResolveInfo) :
  (createIPKeyGenerator getIP args source resolverArgs context info
   = createIPKeyGenerator getIP args' source' resolverArgs' context' info
   <-> or_default (getIP context) "unknown"
       = or_default (getIP context') "unknown") /\
  (getIP context = None \/ getIP context = Some "" ->
   createIPKeyGenerator getIP args source resolverArgs context info
   = "ip:unknown:" ++ parentType_name info ++ "." ++ fieldName info).
Proof.
  unfold createIPKeyGenerator. cbv zeta. split.
  - split; [apply tagged_key_inj | now intros ->].
  - intros [-> | ->]; reflexivity.
Qed.

Lemma join_parts (op : string) (p : string * string)
    (pairs : list (string * string)) :
  join ":" (List.map entry_part
              (List.map (fun kv => (fst kv, Some (snd kv))) (p :: pairs)))
  ++ ":" ++ op
  = fold_right (fun kv acc => fst kv ++ ":" ++ snd kv ++ ":" ++ acc)
      op (p :: pairs).
Proof.
  revert p. induction pairs as [| q pairs IH]; intros [k v].
  - cbn. now rewrite !string_append_assoc.
  - specialize (IH q).
    change (join ":" (List.map entry_part
                        (List.map (fun kv => (fst kv, Some (snd kv)))
                           ((k, v) :: q :: pairs))))
      with ((k ++ ":" ++ v) ++ ":"
            ++ join ":" (List.map entry_part
                           (List.map (fun kv => (fst kv, Some (snd kv)))
                              (q :: pairs)))).
    cbn [fold_right fst snd] in IH |- *. rewrite <- IH.
    now rewrite !string_append_assoc.
Qed.

(** X12: with at least one identifier that is neither [null] nor
    [undefined], the composite key lists the remaining identifiers in the
    order of the object, each as its name, ":", its value and ":", followed
    by the operation; the dropped identifiers leave no trace. *)
Theorem composite_key_lists_present_identifiers
    {Source ResolverArgs TContext : Type}
    (getIdentifiers : TContext -> list (string * option string))
    (args : RateLimitDirectiveArgs) (source : Source)
    (resolverArgs : ResolverArgs) (context : TContext)
    (info : GraphQLResolveInfo) (pairs : list (string * string)) :
  List.filter entry_present (getIdentifiers context)
  = List.map (fun kv => (fst kv, Some (snd kv))) pairs ->
  pairs <> [] ->
  createCompositeKeyGenerator getIdentifiers args source resolverArgs
    context info
  = fold_right (fun kv acc => fst kv ++ ":" ++ snd kv ++ ":" ++ acc)
      (parentType_name info ++ "." ++ fieldName info) pairs.
Proof.
  intros Hpresent Hne. unfold createCompositeKeyGenerator. cbv zeta.
  rewrite Hpresent. destruct pairs as [| p pairs]; [contradiction |].
  apply join_parts.
Qed.

(* ================================================================= *)
(** * The further properties on the sample configuration *)

Local Open Scope list_scope.

Lemma getLimiter_repeat_is_noop_witness :
  let limiter := Sample.limiter 0 60 10 in
  let st' := mkState [("60:10"%string, limiter)] 1 in
  getLimiter Sample.digits Sample.limiterClass
             Sample.limiterOptions (mkArgs (num 60) (num 10)) st'
  = (Normal limiter, st').
Proof.
  cbv zeta.
  exact (getLimiter_repeat_is_noop Sample.digits Sample.limiterClass
                                   Sample.limiterOptions
           (mkArgs (num 60) (num 10)) initial_state _ _ eq_refl).
Defined.

(** A cache hit through another spelling of the same quota, on a
    directive whose [limiterOptions] carry [points: 999]: the limiter has
    the duration of the arguments and the points of the options. *)
Lemma getLimiter_returns_limiter_of_quota_witness :
  let limiterOptions := mkLimiterOptions None (Some (OptNumber (num 999))) in
  let calls := Sample.quotas 1 3 in
  let args := mkArgs (Fin (120 # 2)) (num 2) in
  let limiter :=
    mkLimiter 1 (mkCtorOptions (OptNumber (num 60)) (OptNumber (num 999))) in
  fst (getLimiter Sample.digits Sample.limiterClass limiterOptions args
         (state_after Sample.digits Sample.limiterClass limiterOptions calls))
  = Normal limiter /\
  opt_points (options limiter) = OptNumber (num 999) /\
  exists n d, opt_duration (options limiter) = OptNumber n /\
              denotes n d /\ denotes (duration args) d.
Proof.
  cbv zeta.
  pose (limiterOptions := mkLimiterOptions None (Some (OptNumber (num 999)))).
  pose (args := mkArgs (Fin (120 # 2)) (num 2)).
  pose (limiter :=
          mkLimiter 1
            (mkCtorOptions (OptNumber (num 60)) (OptNumber (num 999)))).
  pose (st := state_after Sample.digits Sample.limiterClass limiterOptions
                (Sample.quotas 1 3)).
  assert (Hcall :
            getLimiter Sample.digits Sample.limiterClass limiterOptions args st
            = (Normal limiter,
               snd (getLimiter Sample.digits Sample.limiterClass
                      limiterOptions args st)))
    by (vm_compute; reflexivity).
  destruct (getLimiter_returns_limiter_of_quota Sample.digits
              Sample.limiterClass limiterOptions _ _ _ _ Hcall)
    as (_ & Hpoints & _ & _ & Hduration).
  split; [| split].
  - fold limiterOptions args st. rewrite Hcall. reflexivity.
  - exact (Hpoints _ eq_refl).
  - exact (Hduration eq_refl).
Defined.

(** A full cache, and a constructor that fails on limit 101: the entry of
    limit 1 is lost although nothing takes its place. *)
Lemma failed_construction_still_evicts_witness :
  let st := state_after Sample.digits Outage.limiterClass Sample.limiterOptions
              (Sample.quotas 1 100) in
  let args := mkArgs (num 60) (num 101) in
  let result := getLimiter Sample.digits Outage.limiterClass
                           Sample.limiterOptions args st in
  fst result = Throw Outage.error /\
  exists oldest, limiterCache st = oldest :: limiterCache (snd result).
Proof.
  cbv zeta.
  assert (Hvalid : valid_quota (mkArgs (num 60) (num 101)))
    by (exists 101, 60; repeat split; try apply denotes_num; lia).
  assert (Hnew : map_get (cacheKey Sample.digits (mkArgs (num 60) (num 101)))
                   (limiterCache
                      (state_after Sample.digits Outage.limiterClass
                                   Sample.limiterOptions
                         (Sample.quotas 1 100))) = None)
    by (vm_compute; reflexivity).
  assert (Hsize : map_size
                    (limiterCache
                       (state_after Sample.digits Outage.limiterClass
                                    Sample.limiterOptions
                          (Sample.quotas 1 100)))
                  = MAX_LIMITER_CACHE_SIZE)
    by (vm_compute; reflexivity).
  destruct (failed_construction_still_evicts Sample.digits
              Outage.limiterClass Sample.limiterOptions (Sample.quotas 1 100)
              (mkArgs (num 60) (num 101)) Outage.error Hvalid Hnew eq_refl)
    as (Hthrow & _ & _ & _ & Hfull).
  split; [exact Hthrow | exact (Hfull Hsize)].
Defined.

(** An admitted request: the resolver runs because the one [consume] call
    was fulfilled. *)
Lemma admission_is_check_then_proceed_witness :
  resolver_invoked
    (trace_of (Sample.invoke (mkArgs (num 60) (num 5)) [Fulfilled tt]
                 (OpReturn "success"%string))) = true.
Proof.
  apply (proj2 (proj2 (proj2 (proj2
           (admission_is_check_then_proceed
              Sample.digits Sample.keyGenerator Sample.limiterClass
              Sample.limiterOptions
              Sample.consume (fun _ _ _ _ => OpReturn "success"%string)
              (mkArgs (num 60) (num 5)) tt tt tt Sample.info
              (mkWorld initial_state [Fulfilled tt])))))).
  exists "Query.test"%string,
    (Sample.limiter 0 60 5), tt.
  repeat split.
Defined.

(** Two fields of [Query] with the same quota, one request each. *)
Lemma same_quota_requests_share_limiter_witness :
  let limiter := Sample.limiter 0 60 5 in
  let rq1 := mkRequest unit unit unit (mkArgs (num 60) (num 5)) tt tt tt
               (mkInfo "Query" "posts") in
  let rq2 := mkRequest unit unit unit (mkArgs (num 60) (num 5)) tt tt tt
               (mkInfo "Query" "users") in
  let serve1 := handle Sample.digits Sample.keyGenerator Sample.limiterClass
                       Sample.limiterOptions
                  Sample.consume (fun _ _ _ _ => OpReturn "success"%string) in
  In (EvConsume limiter "Query.users")
    (trace_of (serve1 rq2 (world_of (serve1 rq1 (mkWorld initial_state []))))).
Proof.
  cbv zeta.
  apply (same_quota_requests_share_limiter
           Sample.digits Sample.keyGenerator Sample.limiterClass
           Sample.limiterOptions
           Sample.consume (fun _ _ _ _ => OpReturn "success"%string)
           (mkRequest unit unit unit (mkArgs (num 60) (num 5)) tt tt tt
              (mkInfo "Query" "posts"))
           (mkRequest unit unit unit (mkArgs (num 60) (num 5)) tt tt tt
              (mkInfo "Query" "users"))
           (mkWorld initial_state [])
           (Sample.limiter 0 60 5)
           "Query.posts" "Query.users").
  - right. left. reflexivity.
  - exists 5, 60. repeat split; apply denotes_num.
  - reflexivity.
Defined.

(** The two users of the test suite. *)
Lemma user_key_identifies_user_witness :
  createUserKeyGenerator (fun c : option string => c)
    (mkArgs (num 60) (num 10)) tt tt (Some "user1"%string)
    (mkInfo "Query" "test")
  <> createUserKeyGenerator (fun c : option string => c)
       (mkArgs (num 60) (num 10)) tt tt (Some "user2"%string)
       (mkInfo "Query" "test").
Proof.
  intros H.
  apply (proj1 (proj1 (user_key_identifies_user
                         (fun c : option string => c)
                         (mkArgs (num 60) (num 10)) (mkArgs (num 60) (num 10))
                         tt tt tt tt (Some "user1"%string)
                         (Some "user2"%string) (mkInfo "Query" "test")))) in H.
  discriminate H.
Defined.

(** A context without an address. *)
Lemma ip_key_identifies_address_witness :
  createIPKeyGenerator (fun c : option string => c)
    (mkArgs (num 60) (num 10)) tt tt None (mkInfo "Query" "test")
  = "ip:unknown:Query.test"%string.
Proof.
  apply (proj2 (ip_key_identifies_address
                  (fun c : option string => c)
                  (mkArgs (num 60) (num 10)) (mkArgs (num 60) (num 10))
                  tt tt tt tt None None (mkInfo "Query" "test"))).
  now left.
Defined.

(** Identifiers [{ a: null, b: "2", c: "3" }]. *)
Lemma composite_key_lists_present_identifiers_witness :
  createCompositeKeyGenerator
    (fun _ : unit =>
       [("a", None); ("b", Some "2"); ("c", Some "3")]%string)
    (mkArgs (num 60) (num 10)) tt tt tt (mkInfo "Query" "test")
  = "b:2:c:3:Query.test"%string.
Proof.
  apply (composite_key_lists_present_identifiers
           (fun _ : unit =>
              [("a", None); ("b", Some "2"); ("c", Some "3")]%string)
           (mkArgs (num 60) (num 10)) tt tt tt (mkInfo "Query" "test")
           [("b", "2"); ("c", "3")]%string).
  - reflexivity.
  - discriminate.
Defined.
